(** * The S3 binary cache store of Nix: chunked download, upload, probes

    A shallow embedding of [src/libstore/s3-binary-cache-store.cc] and
    [src/libstore/s3.hh].  The AWS SDK (transport client, transfer manager,
    executor threads) is the environment: its answers are inputs of the
    model, and the calls made to it are recorded in the state. *)

From Stdlib Require Import NArith ZArith Lia.
From stdpp Require Import base option list gmap strings.

Local Open Scope N_scope.

(** ** Outcomes, errors and exceptions *)

(** [Aws::S3::S3Errors]: the members the store inspects, and the rest of the
    SDK's enumeration behind [OTHER_S3_ERROR]. *)
Inductive S3Errors :=
| ACCESS_DENIED
| NO_SUCH_KEY
| RESOURCE_NOT_FOUND
| NO_SUCH_BUCKET
| INTERNAL_FAILURE
| NETWORK_CONNECTION
| SLOW_DOWN
| OTHER_S3_ERROR (code : nat).

(** [Aws::Utils::Outcome<R, E>] with the error's type and message. *)
Inductive Outcome (R : Type) :=
| Success (r : R)
| Failure (err : S3Errors) (message : string).
Arguments Success {R} r.
Arguments Failure {R} err message.

(** The exceptions the file throws. *)
Inductive exn :=
| S3Error (err : S3Errors) (msg : string)
| Error (msg : string)
| NoSuchBinaryCacheFile (msg : string)
| runtime_error (msg : string).

(** A computation that returns or throws. *)
Inductive result (A : Type) :=
| Ok (a : A)
| Throw (e : exn).
Arguments Ok {A} a.
Arguments Throw {A} e.

(** [checkAws]: the result of a successful outcome, or [S3Error] with the
    outcome's error type and the prefixed message. *)
Definition checkAws {R} (fs : string) (outcome : Outcome R) : result R :=
  match outcome with
  | Success r => Ok r
  | Failure err message => Throw (S3Error err (fs +:+ ": " +:+ message))
  end.

(** [Aws::Transfer::TransferStatus]. *)
Inductive TransferStatus :=
| EXACT_OBJECT_ALREADY_EXISTS
| NOT_STARTED
| IN_PROGRESS
| CANCELED
| FAILED
| COMPLETED
| ABORTED.

Definition bytes := list Byte.byte.

(** [std::size_t] is 64 bits wide. *)
Definition size_t_max : N := 2 ^ 64.
Definition size_t_add (a b : N) : N := (a + b) mod size_t_max.
Definition size_t_sub (a b : N) : N := (a + size_t_max - b mod size_t_max) mod size_t_max.

(** [S3Helper::FileTransferResult] (s3.hh). *)
Record FileTransferResult := {
  data : option bytes;
  data_size : option N;
  durationMs : N
}.

(** [S3Helper::getObjectSize]: a HEAD request through [checkAws]; the
    content length ([long long]) is cast to [std::size_t]. *)
Definition getObjectSize (key : string) (head : Outcome Z) : result N :=
  match checkAws ("AWS error checking object size '" +:+ key +:+ "'") head with
  | Ok contentLength => Ok (Z.to_N (contentLength mod 2 ^ 64))
  | Throw e => Throw e
  end.

(** ** The chunked downloader: [S3Helper::getObject] with a sink *)

Module Downloader.

(** [struct Chunk]: the stream the transport writes into (null until the
    transport creates it) and the transfer handle.  The promise of the chunk
    shares its state with the future in the queue, so it lives in the
    [promises] store of the state, under the handle. *)
Record Chunk := {
  stream : option bytes;
  handle : nat
}.

(** The shared state of a promise and its future. *)
Inductive shared_state :=
| Pending
| Ready (c : Chunk)
| Broken (e : exn).

(** Where the calling thread stands in the loop of lines 289-302. *)
Inductive consumer :=
| AtLoop
| InGet
| AtSink (chunk : Chunk)
| AtPop
| Returned
| Raised (e : exn).

Record state := {
  next_chunk_offset : N;
  transfers : gmap nat Chunk;
  chunks : list nat;
  promises : gmap nat shared_state;
  requests : list (N * N);
  sink : list bytes;
  pc : consumer
}.

Definition chunk_size : N := 32 * 1024 * 1024.
Definition max_transfers : nat := 3.
Definition max_chunks : nat := 5.

Definition with_pc (p : consumer) (s : state) : state :=
  {| next_chunk_offset := next_chunk_offset s; transfers := transfers s;
     chunks := chunks s; promises := promises s; requests := requests s;
     sink := sink s; pc := p |}.

Section Fetch.

(** The size the metadata probe reported, and the body the transport
    writes into a chunk's stream for the range request [(offset, length)]. *)
Variable object_size : N.
Variable range_body : N -> N -> bytes.

(** The test of the [while] of [start_downloads] (line 272). *)
Definition loop_cond (s : state) : bool :=
  (next_chunk_offset s <? object_size)
  && (size (transfers s) <? max_transfers)%nat
  && (length (chunks s) <? max_chunks)%nat.

(** One turn of the loop (lines 274-280).  The handle of the new transfer is
    the number of requests made so far; the request asks for [chunk_size]
    bytes at the cursor, and the cursor advances by [download_size]. *)
Definition submit (s : state) : state :=
  let h := length (requests s) in
  let download_size :=
    N.min chunk_size (size_t_sub object_size (next_chunk_offset s)) in
  {| next_chunk_offset := size_t_add (next_chunk_offset s) download_size;
     transfers := <[h := {| stream := None; handle := h |}]> (transfers s);
     chunks := chunks s ++ [h];
     promises := <[h := Pending]> (promises s);
     requests := requests s ++ [(next_chunk_offset s, chunk_size)];
     sink := sink s;
     pc := pc s |}.

Fixpoint start_downloads_loop (fuel : nat) (s : state) : state :=
  match fuel with
  | O => s
  | S fuel' =>
      if loop_cond s then start_downloads_loop fuel' (submit s) else s
  end.

(** [start_downloads]: every turn of the loop lengthens the queue, which the
    test keeps below [max_chunks], so [max_chunks] turns are enough (see
    [start_downloads_exits]). *)
Definition start_downloads (s : state) : state :=
  start_downloads_loop max_chunks s.

(** The promise of chunk [h] is settled with [v] and the chunk leaves the
    map of transfers (lines 251-252 and 260-262). *)
Definition settle (h : nat) (v : shared_state) (s : state) : state :=
  {| next_chunk_offset := next_chunk_offset s;
     transfers := delete h (transfers s);
     chunks := chunks s;
     promises := <[h := v]> (promises s);
     requests := requests s;
     sink := sink s;
     pc := pc s |}.

(** Who owns a chunk.  [Chunk] derives from [enable_shared_from_this]
    (line 97); the chunks of a fetch are made by [make_unique] (line 274)
    and kept in a map of [unique_ptr] (line 224). *)
Inductive owner :=
| UniquePtr
| SharedPtr.

(** [shared_from_this()]: a shared pointer to the chunk when a [shared_ptr]
    owns it; otherwise it throws [std::bad_weak_ptr] ([None]). *)
Definition shared_from_this (o : owner) (c : Chunk) : option Chunk :=
  match o with
  | SharedPtr => Some c
  | UniquePtr => None
  end.

(** [downloadProgressCallback] (lines 241-267), run by a worker thread for
    the transfer [h] in status [st].  It takes the mutex [m], which the
    calling thread holds while it is inside [get()]; after the calling thread
    has left [getObject] there is nothing left to call back into.  The
    transport reports transfers it was given, so [h] is in [transfers]; on
    [COMPLETED] it has written the body of the range into the chunk's
    stream, and [complete()] (lines 99-103) is called on the chunk of the
    map: it calls [shared_from_this()] before [set_value], so on a chunk
    owned by a [unique_ptr] the exception leaves the callback (the guard
    releases [m]) with the promise not fulfilled, the transfer not erased
    and [start_downloads] not called. *)
Definition callback (h : nat) (st : TransferStatus) (s : state) : option state :=
  match pc s with
  | InGet | Returned | Raised _ => None
  | AtLoop | AtSink _ | AtPop =>
      match transfers s !! h, requests s !! h with
      | Some c, Some (off, len) =>
          match st with
          | NOT_STARTED | IN_PROGRESS => Some (start_downloads s)
          | COMPLETED =>
              match shared_from_this UniquePtr
                      {| stream := Some (range_body off len);
                         handle := handle c |} with
              | Some c' => Some (start_downloads (settle h (Ready c') s))
              | None => Some s
              end
          | _ =>
              Some (start_downloads
                      (settle h (Broken (runtime_error "Error from AWS")) s))
          end
      | _, _ => None
      end
  end.

(** One move of the calling thread in the loop of lines 289-302.  In [InGet]
    it holds the mutex and waits for the oldest future of the queue: no move
    while that future is pending. *)
Definition consume (s : state) : option state :=
  match pc s with
  | AtLoop =>
      match chunks s with
      | [] => Some (with_pc Returned s)
      | _ :: _ => Some (with_pc InGet s)
      end
  | InGet =>
      match chunks s with
      | h :: _ =>
          match promises s !! h with
          | Some (Ready c) => Some (with_pc (AtSink c) s)
          | Some (Broken e) => Some (with_pc (Raised e) s)
          | _ => None
          end
      | [] => None
      end
  | AtSink c =>
      match stream c with
      | Some view =>
          Some {| next_chunk_offset := next_chunk_offset s;
                  transfers := transfers s; chunks := chunks s;
                  promises := promises s; requests := requests s;
                  sink := sink s ++ [view]; pc := AtPop |}
      | None => None
      end
  | AtPop =>
      match chunks s with
      | _ :: rest =>
          Some (start_downloads
                  {| next_chunk_offset := next_chunk_offset s;
                     transfers := transfers s; chunks := rest;
                     promises := promises s; requests := requests s;
                     sink := sink s; pc := AtLoop |})
      | [] => None
      end
  | Returned | Raised _ => None
  end.

(** The moves of the two kinds of threads. *)
Inductive event :=
| Consume
| Callback (h : nat) (st : TransferStatus).

Definition step (e : event) (s : state) : option state :=
  match e with
  | Consume => consume s
  | Callback h st => callback h st s
  end.

Fixpoint run (evs : list event) (s : state) : option state :=
  match evs with
  | [] => Some s
  | e :: evs' =>
      match step e s with
      | Some s' => run evs' s'
      | None => None
      end
  end.

(** The state after the first [start_downloads] (lines 223-226, 284-287). *)
Definition empty_state : state :=
  {| next_chunk_offset := 0; transfers := ∅; chunks := []; promises := ∅;
     requests := []; sink := []; pc := AtLoop |}.

Definition init : state := start_downloads empty_state.

(** The value returned once the loop is left (lines 332-339). *)
Definition transfer_result (elapsed : N) : FileTransferResult :=
  {| data := None; data_size := Some object_size; durationMs := elapsed |}.

End Fetch.

(** [S3Helper::getObject(bucketName, key, sink)] as a whole: the metadata
    probe, then the pipeline under the schedule [evs] of the threads, then
    the result.  [None]: under this schedule the call has not come back.
    The second component is what the sink was given. *)
Definition getObject (key : string) (head : Outcome Z)
    (range_body : N -> N -> bytes) (evs : list event) (elapsed : N)
  : option (result FileTransferResult * list bytes) :=
  match getObjectSize key head with
  | Throw e => Some (Throw e, [])
  | Ok object_size =>
      match run object_size range_body evs (init object_size) with
      | Some s =>
          match pc s with
          | Returned => Some (Ok (transfer_result object_size elapsed), sink s)
          | Raised e => Some (Throw e, sink s)
          | _ => None
          end
      | None => None
      end
  end.

(** *** The transport and the quantities the properties speak of *)

Fixpoint takeN {A} (n : N) (l : list A) : list A :=
  match l with
  | [] => []
  | x :: l' => if n =? 0 then [] else x :: takeN (N.pred n) l'
  end.

Fixpoint dropN {A} (n : N) (l : list A) : list A :=
  match l with
  | [] => []
  | x :: l' => if n =? 0 then l else dropN (N.pred n) l'
  end.

(** The remote store's ranged GET: the bytes of the object from [off], at
    most [len] of them (a range that overshoots the end is cut there). *)
Definition s3_range (obj : bytes) (off len : N) : bytes :=
  takeN len (dropN off obj).

(** Transfers in flight: the entries of the map of transfers. *)
Definition in_flight (s : state) : nat := size (transfers s).

(** Chunks completed and still in the queue. *)
Definition is_buffered (s : state) (h : nat) : bool :=
  match promises s !! h with
  | Some (Ready _) => true
  | _ => false
  end.

Definition buffered (s : state) : nat :=
  length (List.filter (is_buffered s) (chunks s)).

(** The first [n] range requests of a fetch, and the bodies they bring. *)
Definition reqs_upto (n : nat) : list (N * N) :=
  (fun i => (N.of_nat i * chunk_size, chunk_size)) <$> seq 0 n.

Definition bodies_upto (range_body : N -> N -> bytes) (n : nat) : list bytes :=
  (fun i => range_body (N.of_nat i * chunk_size) chunk_size) <$> seq 0 n.

(** Chunks taken off the queue so far. *)
Definition popped (s : state) : nat :=
  match pc s with
  | AtPop => pred (length (sink s))
  | _ => length (sink s)
  end.

(** What holds of every state of a fetch (see [reachable_Inv]): the requests
    made are the windows of the object in order, the queue holds the chunks
    requested and not yet taken off, the sink holds the bodies of the chunks
    before them, a chunk is in the map of transfers exactly while its promise
    is pending, and both bounds hold. *)
Record Inv (object_size : N) (range_body : N -> N -> bytes) (s : state)
  : Prop := {
  inv_requests : requests s = reqs_upto (length (requests s));
  inv_offsets : forall i, (i < length (requests s))%nat ->
    N.of_nat i * chunk_size < object_size;
  inv_cursor : next_chunk_offset s
    = N.min (N.of_nat (length (requests s)) * chunk_size) object_size;
  inv_popped : (popped s <= length (requests s))%nat;
  inv_chunks : chunks s = seq (popped s) (length (requests s) - popped s);
  inv_sink : sink s = bodies_upto range_body (length (sink s));
  inv_transfers : forall h,
    is_Some (transfers s !! h) <->
    h ∈ chunks s /\ promises s !! h = Some Pending;
  inv_ready : forall h c, promises s !! h = Some (Ready c) ->
    stream c = Some (range_body (N.of_nat h * chunk_size) chunk_size);
  inv_known : forall h, h ∈ chunks s -> is_Some (promises s !! h);
  inv_broken : forall h e, promises s !! h = Some (Broken e) -> h ∈ chunks s;
  inv_in_flight : (size (transfers s) <= max_transfers)%nat;
  inv_queue : (length (chunks s) <= max_chunks)%nat;
  inv_pc :
    match pc s with
    | AtSink c =>
        exists h rest, chunks s = h :: rest /\ promises s !! h = Some (Ready c)
    | AtPop =>
        sink s <> [] /\
        exists h rest c, chunks s = h :: rest /\ promises s !! h = Some (Ready c)
    | Returned => chunks s = []
    | Raised e =>
        exists h rest, chunks s = h :: rest /\ promises s !! h = Some (Broken e)
    | AtLoop | InGet => True
    end;
  inv_exn : forall h e, promises s !! h = Some (Broken e) ->
    e = runtime_error "Error from AWS"
}.

(** No transfer has failed so far. *)
Definition no_broken (s : state) : Prop :=
  forall h e, promises s !! h <> Some (Broken e).

(** No chunk has completed: no promise holds a chunk, the sink has received
    nothing, and the calling thread is not past a [get()] that returned. *)
Definition nothing_completed (s : state) : Prop :=
  (forall h c, promises s !! h <> Some (Ready c))
  /\ sink s = []
  /\ match pc s with
     | AtSink _ | AtPop => False
     | AtLoop | InGet | Returned | Raised _ => True
     end.

(** The statuses on which the callback does not fail the chunk. *)
Definition succeeding (st : TransferStatus) : bool :=
  match st with
  | NOT_STARTED | IN_PROGRESS | COMPLETED => true
  | _ => false
  end.

(** The moves of a fetch in which no transfer fails. *)
Definition benign (e : event) : Prop :=
  match e with
  | Consume => True
  | Callback _ st => succeeding st = true
  end.

(** The states a fetch of an object of [object_size] bytes goes through. *)
Definition reachable (object_size : N) (range_body : N -> N -> bytes)
    (s : state) : Prop :=
  exists evs, run object_size range_body evs (init object_size) = Some s.

End Downloader.

(** ** The store: [S3BinaryCacheStoreImpl] *)

Module Store.

(** [S3BinaryCacheStore::Stats]: 64-bit counters. *)
Record Stats := {
  put : N; putBytes : N; putTimeMs : N;
  get : N; getBytes : N; getTimeMs : N;
  head : N
}.

Definition u64 (x : N) : N := x mod 2 ^ 64.

Definition no_stats : Stats :=
  {| put := 0; putBytes := 0; putTimeMs := 0;
     get := 0; getBytes := 0; getTimeMs := 0; head := 0 |}.

(** *** [getFile] (lines 571-587) *)

(** [call] is what [s3Helper.getObject(bucketName, path, sink)] did: it
    returned a result or threw.  Reading [*res.data_size] when it is empty
    is undefined; the counter is left as it is there. *)
Definition getFile (uri path : string) (stats : Stats)
    (call : result FileTransferResult) : result unit * Stats :=
  let stats1 :=
    {| put := put stats; putBytes := putBytes stats; putTimeMs := putTimeMs stats;
       get := u64 (get stats + 1); getBytes := getBytes stats;
       getTimeMs := getTimeMs stats; head := head stats |} in
  match call with
  | Throw e => (Throw e, stats1)
  | Ok res =>
      let fetched :=
        match data res with
        | Some _ => default 0 (data_size res)
        | None => 0
        end in
      let stats2 :=
        {| put := put stats1; putBytes := putBytes stats1;
           putTimeMs := putTimeMs stats1; get := get stats1;
           getBytes := u64 (getBytes stats1 + fetched);
           getTimeMs := u64 (getTimeMs stats1 + durationMs res);
           head := head stats1 |} in
      match data res with
      | Some _ => (Ok tt, stats2)
      | None =>
          (Throw (NoSuchBinaryCacheFile
                    ("file '" +:+ path +:+ "' does not exist in binary cache '"
                     +:+ uri +:+ "'")),
           stats2)
      end
  end.

(** *** [fileExists] (lines 432-452) *)

(** [res] is the outcome of the HEAD request. *)
Definition fileExists (path : string) (stats : Stats) (res : Outcome unit)
  : result bool * Stats :=
  let stats1 :=
    {| put := put stats; putBytes := putBytes stats; putTimeMs := putTimeMs stats;
       get := get stats; getBytes := getBytes stats;
       getTimeMs := getTimeMs stats; head := u64 (head stats + 1) |} in
  match res with
  | Success _ => (Ok true, stats1)
  | Failure err message =>
      match err with
      | RESOURCE_NOT_FOUND | NO_SUCH_KEY | ACCESS_DENIED => (Ok false, stats1)
      | _ =>
          (Throw (Error ("AWS error fetching '" +:+ path +:+ "': " +:+ message)),
           stats1)
      end
  end.

(** *** [uploadFile] (lines 457-549) *)

(** The settings [uploadFile] reads. *)
Record Config := {
  bucketName : string;
  multipartUpload : bool;
  bufferSize : N
}.

(** Requests that leave the process. *)
Inductive NetCall :=
| NetUploadFile (bucket key mimeType : string)
| NetPutObject (bucket key mimeType : string) (contentEncoding : option string).

(** The members of the store that [uploadFile] touches, and the requests
    sent so far.  [transferManager] holds the part size of the engine when
    the engine exists. *)
Record StoreState := {
  stats : Stats;
  transferManager : option N;
  transferManagerCreated : bool;
  network : list NetCall
}.

Definition new_store : StoreState :=
  {| stats := no_stats; transferManager := None;
     transferManagerCreated := false; network := [] |}.

(** What the environment answers during one upload: the position [tellg]
    reports at the end of the stream, the status and last error of the
    multi-part handle after [WaitUntilFinished], the outcome of the single
    PUT, and the time measured. *)
Record UploadEnv := {
  stream_size : Z;
  final_status : TransferStatus;
  last_error : string;
  put_outcome : Outcome unit;
  elapsed_ms : N
}.

(** [std::call_once(transferManagerCreated, ...)] (lines 471-494). *)
Definition create_transfer_manager (cfg : Config) (st : StoreState) : StoreState :=
  if transferManagerCreated st then st
  else
    {| stats := stats st;
       transferManager :=
         if multipartUpload cfg then Some (bufferSize cfg) else transferManager st;
       transferManagerCreated := true;
       network := network st |}.

Definition send (c : NetCall) (st : StoreState) : StoreState :=
  {| stats := stats st; transferManager := transferManager st;
     transferManagerCreated := transferManagerCreated st;
     network := network st ++ [c] |}.

(** Lines 537-548. *)
Definition record_put (env : UploadEnv) (st : StoreState) : StoreState :=
  {| stats :=
       {| put := u64 (put (stats st) + 1);
          putBytes := u64 (putBytes (stats st) + Z.to_N (Z.max (stream_size env) 0));
          putTimeMs := u64 (putTimeMs (stats st) + elapsed_ms env);
          get := get (stats st); getBytes := getBytes (stats st);
          getTimeMs := getTimeMs (stats st); head := head (stats st) |};
     transferManager := transferManager st;
     transferManagerCreated := transferManagerCreated st;
     network := network st |}.

Definition uploadFile (cfg : Config) (path mimeType contentEncoding : string)
    (env : UploadEnv) (st : StoreState) : result unit * StoreState :=
  let st1 := create_transfer_manager cfg st in
  match transferManager st1 with
  | Some _ =>
      if String.eqb contentEncoding "" then
        let st2 := send (NetUploadFile (bucketName cfg) path mimeType) st1 in
        match final_status env with
        | FAILED =>
            (Throw (Error ("AWS error: failed to upload 's3://"
                           +:+ bucketName cfg +:+ "/" +:+ path +:+ "': "
                           +:+ last_error env)), st2)
        | COMPLETED => (Ok tt, record_put env st2)
        | _ =>
            (Throw (Error ("AWS error: transfer status of 's3://"
                           +:+ bucketName cfg +:+ "/" +:+ path
                           +:+ "' in unexpected state")), st2)
        end
      else
        (Throw (Error "setting a content encoding is not supported with S3 multi-part uploads"),
         st1)
  | None =>
      let encoding :=
        if String.eqb contentEncoding "" then None else Some contentEncoding in
      let st2 := send (NetPutObject (bucketName cfg) path mimeType encoding) st1 in
      match checkAws ("AWS error uploading '" +:+ path +:+ "'") (put_outcome env) with
      | Ok _ => (Ok tt, record_put env st2)
      | Throw e => (Throw e, st2)
      end
  end.

(** The states the store can be in: the engine exists exactly when the
    once-flag is set and multi-part upload is configured. *)
Definition store_ok (cfg : Config) (st : StoreState) : Prop :=
  is_Some (transferManager st) <->
  transferManagerCreated st = true /\ multipartUpload cfg = true.

(** *** [queryAllValidPaths] (lines 589-619) *)

(** Modelled from the spec: [hasSuffix] of the utility library, which is not
    under src/; the key "ends with the fixed metadata-object suffix". *)
Definition hasSuffix (s suffix : string) : bool :=
  (String.length suffix <=? String.length s)%nat
  && String.eqb
       (String.substring (String.length s - String.length suffix)
                         (String.length suffix) s)
       suffix.

(** The test of line 611: the key is passed over. *)
Definition skipped (key : string) : bool :=
  negb (String.length key =? 40)%nat || negb (hasSuffix key ".narinfo").

Section Enumerator.

(** The store paths, their parser, the store directory and the placeholder
    name are declared outside this file. *)
Context {StorePath : Type} `{Countable StorePath}.
Variable parseStorePath : string -> result StorePath.
Variable storeDir : string.
Variable MissingName : string.

(** The string handed to [parseStorePath] for a key (line 612). *)
Definition decode (key : string) : string :=
  storeDir +:+ "/" +:+ String.substring 0 (String.length key - 8) key
  +:+ "-" +:+ MissingName.

(** The [for] loop over one page (lines 609-613). *)
Fixpoint scan_page (contents : list string) (paths : gset StorePath)
  : result (gset StorePath) :=
  match contents with
  | [] => Ok paths
  | key :: rest =>
      if skipped key then scan_page rest paths
      else
        match parseStorePath (decode key) with
        | Ok p => scan_page rest ({[p]} ∪ paths)
        | Throw e => Throw e
        end
  end.

(** [ListObjects] for a marker: the keys of the page and the next marker. *)
Variable bucket : string.
Variable ListObjects : string -> Outcome (list string * string).

(** The [do ... while] over the pages; [None] when [fuel] pages were not
    enough to reach an empty marker. *)
Fixpoint list_pages (fuel : nat) (marker : string) (paths : gset StorePath)
  : option (result (gset StorePath)) :=
  match fuel with
  | O => None
  | S fuel' =>
      match checkAws ("AWS error listing bucket '" +:+ bucket +:+ "'")
                    (ListObjects marker) with
      | Throw e => Some (Throw e)
      | Ok (contents, next) =>
          match scan_page contents paths with
          | Throw e => Some (Throw e)
          | Ok paths' =>
              if String.eqb next "" then Some (Ok paths')
              else list_pages fuel' next paths'
          end
      end
  end.

Definition queryAllValidPaths (fuel : nat) : option (result (gset StorePath)) :=
  list_pages fuel "" ∅.

End Enumerator.

End Store.

(** ** Instances used in the examples *)

Module Instances.
Import Downloader.

(** A three-byte object, and a transport whose bodies tell the offsets of
    the first three windows apart. *)
Definition abc : bytes := [Byte.x61; Byte.x62; Byte.x63].

Definition tagged (off len : N) : bytes :=
  if off =? 0 then [Byte.x30]
  else if off =? chunk_size then [Byte.x31] else [Byte.x32].

(** A schedule of the threads: the transfer of the first chunk is reported
    completed, then the calling thread waits. *)
Definition caller_after_completion : list event :=
  [Callback 0 COMPLETED; Consume].

(** Keys of a listing. *)
Definition narinfo_key : string := "0123456789abcdfghijklmnpqrsvwxyz.narinfo".

Definition listed_page : list string :=
  [narinfo_key; "nix-cache-info";
   "0123456789abcdfghijklmnpqrsvwxyz01234567.narinfo"].

(** A listing of two pages: the first names the marker of the second. *)
Definition two_pages (marker : string) : Outcome (list string * string) :=
  if String.eqb marker "" then Success (listed_page, "next")
  else if String.eqb marker "next"
       then Success (["zyxwvsrqpnmlkjihgfdcba9876543210.narinfo"; "log/"], "")
       else Failure NO_SUCH_BUCKET "no such page".

(** A store with multi-part upload, and an upload whose handle ends FAILED. *)
Definition multipart_config : Store.Config :=
  {| Store.bucketName := "cache"; Store.multipartUpload := true;
     Store.bufferSize := 5 * 1024 * 1024 |}.

Definition failed_upload : Store.UploadEnv :=
  {| Store.stream_size := 10; Store.final_status := FAILED;
     Store.last_error := "timed out"; Store.put_outcome := Success tt;
     Store.elapsed_ms := 3 |}.

End Instances.

(** ** The rest of [S3Helper]: the whole-object [getObject], and [getFile]
    on top of the chunked one *)

Module Fetch.
Import Downloader.

Section WholeObject.

(** [decompress] of the compression library (not in this file): the
    method, the input, and the output or the exception. *)
Variable decompress : string -> bytes -> result bytes.

(** [S3Helper::getObject(bucketName, key)] (lines 171-207).  [outcome] is
    what [client->GetObject] answered: the body and its content encoding.
    An [S3Error] of type NO_SUCH_KEY or ACCESS_DENIED raised inside the
    [try] is swallowed and leaves [data] empty; anything else propagates. *)
Definition getObject (key : string) (outcome : Outcome (bytes * string))
    (elapsed : N) : result FileTransferResult :=
  let attempt : result (option bytes) :=
    match checkAws ("AWS error fetching '" +:+ key +:+ "'") outcome with
    | Ok (body, contentEncoding) =>
        match decompress contentEncoding body with
        | Ok d => Ok (Some d)
        | Throw e => Throw e
        end
    | Throw e => Throw e
    end in
  let caught : result (option bytes) :=
    match attempt with
    | Throw (S3Error NO_SUCH_KEY _) | Throw (S3Error ACCESS_DENIED _) => Ok None
    | r => r
    end in
  match caught with
  | Ok d => Ok {| data := d; data_size := None; durationMs := elapsed |}
  | Throw e => Throw e
  end.

End WholeObject.

(** [getFile] (lines 571-587) with the call of the chunked [getObject] it
    makes: the outcome of [getFile], the counters, and what the sink was
    given; [None] when the call has not come back under the schedule. *)
Definition getFile_call (uri path : string) (head : Outcome Z)
    (range_body : N -> N -> bytes) (evs : list event) (elapsed : N)
    (stats : Store.Stats) : option (result unit * Store.Stats * list bytes) :=
  match Downloader.getObject path head range_body evs elapsed with
  | Some (call, snk) =>
      Some (fst (Store.getFile uri path stats call),
            snd (Store.getFile uri path stats call), snk)
  | None => None
  end.

(** Chunks of the queue whose transfer is still in flight. *)
Definition is_pending (s : state) (h : nat) : bool :=
  match promises s !! h with
  | Some Pending => true
  | _ => false
  end.

End Fetch.

(** ** The rest of the uploads: [upsertFile], and uploads in sequence *)

Module Upload.
Import Store.

(** The compression settings of the store (lines 362-364). *)
Record Compression := {
  narinfoCompression : string;
  lsCompression : string;
  logCompression : string
}.

(** Modelled from the spec: [hasPrefix] of the utility library, which is not
    under src/; the key starts with the prefix of its category. *)
Definition hasPrefix (s prefix : string) : bool := String.prefix prefix s.

(** The environment of an upload whose stream is a string stream over
    [body]: [tellg] at its end is the length of [body]. *)
Definition over_body (body : bytes) (env : UploadEnv) : UploadEnv :=
  {| stream_size := Z.of_nat (length body);
     final_status := final_status env; last_error := last_error env;
     put_outcome := put_outcome env; elapsed_ms := elapsed_ms env |}.

Section Upsert.

(** [compress] of the compression library (not in this file). *)
Variable compress : string -> bytes -> result bytes.

Variable cfg : Config.
Variable ccfg : Compression.

(** The upload of [payload] compressed with [method]: the argument
    [compress(method)] is evaluated before [uploadFile] is entered. *)
Definition upload_compressed (method path mimeType : string) (payload : bytes)
    (env : UploadEnv) (st : StoreState) : result unit * StoreState :=
  match compress method payload with
  | Ok body => uploadFile cfg path mimeType method (over_body body env) st
  | Throw e => (Throw e, st)
  end.

(** [upsertFile] (lines 551-569); [payload] is what the stream holds. *)
Definition upsertFile (path mimeType : string) (payload : bytes)
    (env : UploadEnv) (st : StoreState) : result unit * StoreState :=
  if negb (String.eqb (narinfoCompression ccfg) "") && hasSuffix path ".narinfo"
  then upload_compressed (narinfoCompression ccfg) path mimeType payload env st
  else if negb (String.eqb (lsCompression ccfg) "") && hasSuffix path ".ls"
  then upload_compressed (lsCompression ccfg) path mimeType payload env st
  else if negb (String.eqb (logCompression ccfg) "") && hasPrefix path "log/"
  then upload_compressed (logCompression ccfg) path mimeType payload env st
  else uploadFile cfg path mimeType "" env st.

(** The compression method [upsertFile] applies to a path: that of the
    first category the path falls in whose method is set, metadata before
    listings before logs; empty when there is none. *)
Definition method_for (path : string) : string :=
  if negb (String.eqb (narinfoCompression ccfg) "") && hasSuffix path ".narinfo"
  then narinfoCompression ccfg
  else if negb (String.eqb (lsCompression ccfg) "") && hasSuffix path ".ls"
  then lsCompression ccfg
  else if negb (String.eqb (logCompression ccfg) "") && hasPrefix path "log/"
  then logCompression ccfg
  else "".

End Upsert.

(** One call of [uploadFile], and calls one after the other on the same
    store: a call that throws leaves the store as it left it. *)
Record UploadCall := {
  up_path : string;
  up_mimeType : string;
  up_contentEncoding : string;
  up_env : UploadEnv
}.

Definition upload_once (cfg : Config) (c : UploadCall) (st : StoreState)
  : StoreState :=
  snd (uploadFile cfg (up_path c) (up_mimeType c) (up_contentEncoding c)
         (up_env c) st).

Fixpoint uploads (cfg : Config) (calls : list UploadCall) (st : StoreState)
  : StoreState :=
  match calls with
  | [] => st
  | c :: rest => uploads cfg rest (upload_once cfg c st)
  end.

End Upload.

(** ** The pages of a listing *)

Module Listing.

Section Pages.

Variable ListObjects : string -> Outcome (list string * string).

(** The keys of the pages [queryAllValidPaths] reads from [marker] on, in
    the order read, within [fuel] pages. *)
Fixpoint keys_of_pages (fuel : nat) (marker : string) : list string :=
  match fuel with
  | O => []
  | S fuel' =>
      match ListObjects marker with
      | Success (contents, next) =>
          contents ++ (if String.eqb next "" then []
                       else keys_of_pages fuel' next)
      | Failure _ _ => []
      end
  end.

End Pages.

End Listing.

(** ** More instances *)

Module Samples.
Import Store Upload.

(** A decompressor that knows no method but the empty one. *)
Definition plain_only (method : string) (input : bytes) : result bytes :=
  if String.eqb method "" then Ok input
  else Throw (Error ("unknown compression method '" +:+ method +:+ "'")).

(** A compressor that marks its output with a leading byte. *)
Definition marking (method : string) (input : bytes) : result bytes :=
  Ok (Byte.xff :: input).

Definition xz_narinfo : Compression :=
  {| narinfoCompression := "xz"; lsCompression := ""; logCompression := "" |}.

Definition single_shot_config : Config :=
  {| bucketName := "cache"; multipartUpload := false;
     bufferSize := 5 * 1024 * 1024 |}.

Definition xz_everything : Compression :=
  {| narinfoCompression := "xz"; lsCompression := "bzip2";
     logCompression := "br" |}.

Definition good_upload : UploadEnv :=
  {| stream_size := 10; final_status := COMPLETED; last_error := "";
     put_outcome := Success tt; elapsed_ms := 3 |}.

(** A listing whose every page names a further page. *)
Definition endless (marker : string) : Outcome (list string * string) :=
  Success (["nix-cache-info"], "again").

End Samples.


(** * Properties of the chunked downloader *)

Module DownloaderFacts.
Import Downloader.

(** ** Arithmetic of the cursor *)

Lemma size_t_add_exact a b : a + b < size_t_max -> size_t_add a b = a + b.
Proof. intros H. unfold size_t_add. by apply N.mod_small. Qed.

Lemma size_t_sub_exact a b :
  b <= a -> a < size_t_max -> size_t_sub a b = a - b.
Proof.
  intros Hba Ha. unfold size_t_sub.
  rewrite (N.mod_small b) by lia.
  replace (a + size_t_max - b) with (a - b + 1 * size_t_max) by lia.
  rewrite N.Div0.mod_add. apply N.mod_small. lia.
Qed.

Lemma chunk_size_pos : 0 < chunk_size.
Proof. reflexivity. Qed.

Section Pipeline.

Variable object_size : N.
Variable range_body : N -> N -> bytes.
Hypothesis object_size_fits : object_size < size_t_max.

Local Abbreviation loop_cond := (loop_cond object_size).
Local Abbreviation submit := (submit object_size).
Local Abbreviation start_downloads_loop := (start_downloads_loop object_size).
Local Abbreviation start_downloads := (start_downloads object_size).
Local Abbreviation callback := (callback object_size range_body).
Local Abbreviation consume := (consume object_size).
Local Abbreviation step := (step object_size range_body).
Local Abbreviation run := (run object_size range_body).
Local Abbreviation init := (init object_size).
Local Abbreviation Inv := (Inv object_size range_body).
Local Abbreviation reachable := (reachable object_size range_body).

Lemma advance_cursor cur :
  cur < object_size ->
  size_t_add cur (N.min chunk_size (size_t_sub object_size cur))
  = N.min (cur + chunk_size) object_size.
Proof.
  intros Hlt. rewrite size_t_sub_exact by lia.
  rewrite size_t_add_exact by lia. lia.
Qed.

Lemma loop_cond_true s :
  loop_cond s = true <->
  next_chunk_offset s < object_size
  /\ (size (transfers s) < max_transfers)%nat
  /\ (length (chunks s) < max_chunks)%nat.
Proof.
  unfold Downloader.loop_cond.
  rewrite !andb_true_iff, N.ltb_lt, !Nat.ltb_lt. tauto.
Qed.

Lemma start_downloads_loop_exits fuel s :
  (max_chunks <= fuel + length (chunks s))%nat ->
  loop_cond (start_downloads_loop fuel s) = false.
Proof.
  revert s. induction fuel as [|fuel IH]; intros s Hfuel; simpl.
  - unfold Downloader.loop_cond.
    replace (length (chunks s) <? max_chunks)%nat with false.
    + by rewrite andb_false_r.
    + symmetry. apply Nat.ltb_ge. lia.
  - destruct (loop_cond s) eqn:Hc; [|done].
    apply IH. simpl. rewrite length_app. simpl. lia.
Qed.

(** The loop of [start_downloads] leaves by its test, not by the bound on
    its turns. *)
Lemma start_downloads_exits s : loop_cond (start_downloads s) = false.
Proof. apply start_downloads_loop_exits. lia. Qed.

Lemma reqs_upto_S n :
  reqs_upto (S n) = reqs_upto n ++ [(N.of_nat n * chunk_size, chunk_size)].
Proof. unfold reqs_upto. by rewrite seq_S, fmap_app. Qed.

Lemma bodies_upto_S n :
  bodies_upto range_body (S n)
  = bodies_upto range_body n ++ [range_body (N.of_nat n * chunk_size) chunk_size].
Proof. unfold bodies_upto. by rewrite seq_S, fmap_app. Qed.

Lemma length_reqs_upto n : length (reqs_upto n) = n.
Proof. unfold reqs_upto. by rewrite length_fmap, length_seq. Qed.

Lemma lookup_reqs_upto n i :
  (i < n)%nat -> reqs_upto n !! i = Some (N.of_nat i * chunk_size, chunk_size).
Proof.
  intros Hi. unfold reqs_upto. rewrite list_lookup_fmap.
  by rewrite lookup_seq_lt.
Qed.

(** ** The invariant is kept by every move *)

Ltac open_Inv H :=
  destruct H as [Hreq Hoff Hcur Hpop Hch Hsink Htr Hrdy Hkn Hbr Hfl Hq Hpc Hex].

Lemma chunks_lt_requests s h :
  Inv s -> h ∈ chunks s -> (h < length (requests s))%nat.
Proof.
  intros HI Hh. rewrite (inv_chunks _ _ _ HI) in Hh.
  apply elem_of_seq in Hh. pose proof (inv_popped _ _ _ HI). lia.
Qed.

Lemma submit_Inv s :
  Inv s -> loop_cond s = true -> pc s <> Returned -> Inv (submit s).
Proof.
  intros HI Hc Hret.
  pose proof (fun h => chunks_lt_requests s h HI) as Hfresh.
  open_Inv HI.
  apply loop_cond_true in Hc as (Hlt & Htrans & Hqueue).
  assert (Hcur' : next_chunk_offset s
                  = N.of_nat (length (requests s)) * chunk_size) by lia.
  assert (Hpopped : popped (submit s) = popped s) by done.
  constructor; rewrite ?Hpopped; simpl; rewrite ?length_app; simpl.
  - rewrite Nat.add_1_r, reqs_upto_S, <- Hreq, Hcur'. done.
  - intros i Hi.
    destruct (decide (i = length (requests s))) as [->|]; [lia|].
    apply Hoff. lia.
  - rewrite advance_cursor by done. rewrite Hcur'. lia.
  - lia.
  - rewrite Hch at 1.
    replace (length (requests s) + 1 - popped s)%nat
      with (S (length (requests s) - popped s)) by lia.
    rewrite seq_S. do 2 f_equal. lia.
  - done.
  - intros h. destruct (decide (h = length (requests s))) as [->|Hne].
    + rewrite !lookup_insert_eq. split; [|eauto].
      intros _. split; [|done]. apply elem_of_app. right. by left.
    + rewrite !lookup_insert_ne by done.
      rewrite Htr, elem_of_app, list_elem_of_singleton. tauto.
  - intros h c. destruct (decide (h = length (requests s))) as [->|Hne].
    + by rewrite lookup_insert_eq.
    + rewrite lookup_insert_ne by done. apply Hrdy.
  - intros h Hh. destruct (decide (h = length (requests s))) as [->|Hne].
    + rewrite lookup_insert_eq. eauto.
    + rewrite lookup_insert_ne by done. apply Hkn.
      apply elem_of_app in Hh as [Hh|Hh]; [done|].
      by apply list_elem_of_singleton in Hh.
  - intros h e. destruct (decide (h = length (requests s))) as [->|Hne].
    + by rewrite lookup_insert_eq.
    + rewrite lookup_insert_ne by done. intros Hb. apply Hbr in Hb.
      apply elem_of_app. by left.
  - rewrite map_size_insert. destruct (transfers s !! _); simpl; lia.
  - lia.
  - destruct (pc s); try done.
    + destruct Hpc as (h & rest & Hh & Hp). exists h, (rest ++ [length (requests s)]).
      split; [by rewrite Hh|]. rewrite lookup_insert_ne; [done|].
      intros <-. specialize (Hfresh (length (requests s))). rewrite Hh in Hfresh.
      specialize (Hfresh ltac:(left)). lia.
    + destruct Hpc as (Hne & h & rest & c & Hh & Hp). split; [done|].
      exists h, (rest ++ [length (requests s)]), c.
      split; [by rewrite Hh|]. rewrite lookup_insert_ne; [done|].
      intros <-. specialize (Hfresh (length (requests s))). rewrite Hh in Hfresh.
      specialize (Hfresh ltac:(left)). lia.
    + destruct Hpc as (h & rest & Hh & Hp). exists h, (rest ++ [length (requests s)]).
      split; [by rewrite Hh|]. rewrite lookup_insert_ne; [done|].
      intros <-. specialize (Hfresh (length (requests s))). rewrite Hh in Hfresh.
      specialize (Hfresh ltac:(left)). lia.
  - intros h e. destruct (decide (h = length (requests s))) as [->|Hne].
    + by rewrite lookup_insert_eq.
    + rewrite lookup_insert_ne by done. apply Hex.
Qed.


Lemma start_downloads_loop_Inv fuel s :
  Inv s -> pc s <> Returned -> Inv (start_downloads_loop fuel s).
Proof.
  revert s. induction fuel as [|fuel IH]; intros s HI Hpc; simpl; [done|].
  destruct (loop_cond s) eqn:Hc; [|done].
  apply IH; [by apply submit_Inv | done].
Qed.

Lemma start_downloads_Inv s :
  Inv s -> pc s <> Returned -> Inv (start_downloads s).
Proof. apply start_downloads_loop_Inv. Qed.

Lemma start_downloads_loop_pc fuel s :
  pc (start_downloads_loop fuel s) = pc s.
Proof.
  revert s. induction fuel as [|fuel IH]; intros s; simpl; [done|].
  destruct (loop_cond s); [|done]. by rewrite IH.
Qed.

Lemma start_downloads_loop_sink fuel s :
  sink (start_downloads_loop fuel s) = sink s.
Proof.
  revert s. induction fuel as [|fuel IH]; intros s; simpl; [done|].
  destruct (loop_cond s); [|done]. by rewrite IH.
Qed.

Lemma settle_Inv s h c v :
  Inv s -> transfers s !! h = Some c ->
  match v with
  | Pending => False
  | Ready c' =>
      stream c' = Some (range_body (N.of_nat h * chunk_size) chunk_size)
  | Broken e => e = runtime_error "Error from AWS"
  end ->
  match pc s with AtLoop | AtSink _ | AtPop => True | _ => False end ->
  Inv (settle h v s).
Proof.
  intros HI Hh Hv Hpcs.
  open_Inv HI.
  destruct (proj1 (Htr h) (mk_is_Some _ _ Hh)) as [Hin Hpend].
  assert (Hpopped : popped (settle h v s) = popped s) by done.
  constructor; rewrite ?Hpopped; simpl; try done.
  - intros h'. destruct (decide (h = h')) as [<-|Hne].
    + rewrite lookup_delete_eq, lookup_insert_eq. split.
      * by intros [? ?].
      * intros [_ [= ->]]. done.
    + rewrite lookup_delete_ne, lookup_insert_ne by done. apply Htr.
  - intros h' c'. destruct (decide (h = h')) as [<-|Hne].
    + rewrite lookup_insert_eq. intros [= ->]. done.
    + rewrite lookup_insert_ne by done. apply Hrdy.
  - intros h' Hh'. destruct (decide (h = h')) as [<-|Hne].
    + rewrite lookup_insert_eq. eauto.
    + rewrite lookup_insert_ne by done. by apply Hkn.
  - intros h' e. destruct (decide (h = h')) as [<-|Hne].
    + done.
    + rewrite lookup_insert_ne by done. apply Hbr.
  - rewrite map_size_delete, Hh. simpl. lia.
  - destruct (pc s); try done.
    + destruct Hpc as (h0 & rest & Hh0 & Hp). exists h0, rest.
      split; [done|]. rewrite lookup_insert_ne; [done|]. congruence.
    + destruct Hpc as (Hne & h0 & rest & c0 & Hh0 & Hp). split; [done|].
      exists h0, rest, c0.
      split; [done|]. rewrite lookup_insert_ne; [done|]. congruence.
  - intros h' e. destruct (decide (h = h')) as [<-|Hne].
    + rewrite lookup_insert_eq. intros [= ->]. done.
    + rewrite lookup_insert_ne by done. apply Hex.
Qed.

Lemma callback_Inv s s' h st :
  Inv s -> callback h st s = Some s' -> Inv s'.
Proof.
  intros HI. unfold Downloader.callback.
  destruct (pc s) eqn:Hpc; try done;
    destruct (transfers s !! h) as [c|] eqn:Hh; try done;
    destruct (requests s !! h) as [[off len]|] eqn:Hr; try done;
    (assert (Hol : off = N.of_nat h * chunk_size /\ len = chunk_size);
     [ rewrite (inv_requests _ _ _ HI) in Hr;
       apply lookup_lt_Some in Hr as Hlt; rewrite length_reqs_upto in Hlt;
       rewrite lookup_reqs_upto in Hr by done; by inversion Hr
     | destruct Hol as [-> ->] ]);
    destruct st; simpl; intros [= <-]; try exact HI;
    apply start_downloads_Inv; simpl; rewrite ?Hpc; try done;
    (eapply settle_Inv; [done | done | done | by rewrite Hpc]).
Qed.

Lemma seq_cons_inv p k h rest :
  seq p k = h :: rest -> h = p /\ rest = seq (S p) (k - 1) /\ (0 < k)%nat.
Proof.
  destruct k as [|k]; simpl; [done|]. intros [= <- <-].
  rewrite Nat.sub_0_r. repeat split. lia.
Qed.

Lemma consume_Inv s s' : Inv s -> consume s = Some s' -> Inv s'.
Proof.
  intros HI. unfold Downloader.consume.
  destruct (pc s) eqn:Hpcs; try done.
  - (* the test of the loop *)
    open_Inv HI.
    unfold popped in *. rewrite Hpcs in *.
    destruct (chunks s) eqn:Hcs; intros [= <-]; constructor; simpl;
      rewrite ?Hcs; done.
  - (* the wait on the oldest future *)
    open_Inv HI.
    unfold popped in *. rewrite Hpcs in *.
    destruct (chunks s) as [|h rest] eqn:Hcs; [done|].
    destruct (promises s !! h) as [[|c|e]|] eqn:Hp; try done;
      intros [= <-]; constructor; simpl; rewrite ?Hcs; eauto.
  - (* the write to the sink *)
    destruct (stream chunk) as [view|] eqn:Hview; [|done]. intros [= <-].
    open_Inv HI.
    unfold popped in *. rewrite Hpcs in *.
    destruct Hpc as (h & rest & Hcs & Hp).
    assert (Hlen : pred (length (sink s ++ [view])) = length (sink s)).
    { rewrite length_app. simpl. lia. }
    constructor; unfold popped; simpl; rewrite ?Hlen; try done.
    + rewrite length_app. simpl. rewrite Nat.add_1_r, bodies_upto_S, <- Hsink.
      rewrite Hch in Hcs. apply seq_cons_inv in Hcs as (-> & _ & _).
      apply Hrdy in Hp. rewrite Hview in Hp. by inversion Hp.
    + split; [by destruct (sink s)|]. eauto.
  - (* the chunk leaves the queue *)
    destruct (chunks s) as [|h rest] eqn:Hcs; [done|]. intros [= <-].
    apply start_downloads_Inv; [|done].
    open_Inv HI.
    unfold popped in *. rewrite Hpcs, Hcs in *.
    destruct Hpc as (Hne & h0 & rest0 & c & [= <- <-] & Hp).
    symmetry in Hch. apply seq_cons_inv in Hch as (Hh & Hrest & Hpos).
    assert (Hlen : length (sink s) = S (pred (length (sink s)))).
    { destruct (sink s); [done|]. simpl. lia. }
    constructor; unfold popped; simpl; try done.
    + lia.
    + rewrite Hrest. f_equal; lia.
    + intros h'. rewrite Htr, elem_of_cons. split; [|tauto].
      intros [[->|Hin] Hpend]; [congruence|done].
    + intros h' Hin. apply Hkn. by right.
    + intros h' e Hb. apply Hbr in Hb as Hin.
      apply elem_of_cons in Hin as [->|Hin]; [congruence|done].
    + simpl in Hq. lia.
Qed.

Lemma step_Inv e s s' : Inv s -> step e s = Some s' -> Inv s'.
Proof.
  destruct e; simpl; [apply consume_Inv | apply callback_Inv].
Qed.

Lemma run_Inv evs s s' : Inv s -> run evs s = Some s' -> Inv s'.
Proof.
  revert s. induction evs as [|e evs IH]; intros s HI; simpl.
  - by intros [= <-].
  - destruct (step e s) as [s1|] eqn:He; [|done].
    apply IH. by eapply step_Inv.
Qed.

Lemma empty_Inv : Inv empty_state.
Proof.
  constructor; simpl; try done.
  - intros i Hi. lia.
  - lia.
  - intros h. rewrite lookup_empty. split; [by intros [? ?]|].
    intros [Hin _]. by apply elem_of_nil in Hin.
  - intros h Hin. by apply elem_of_nil in Hin.
  - unfold max_transfers. rewrite map_size_empty. lia.
  - unfold max_chunks. lia.
Qed.

Lemma init_Inv : Inv init.
Proof. apply start_downloads_Inv; [apply empty_Inv | done]. Qed.

(** Every state of a fetch satisfies the invariant. *)
Lemma reachable_Inv s : reachable s -> Inv s.
Proof. intros [evs Hrun]. eapply run_Inv; [apply init_Inv | done]. Qed.

(** The test of [start_downloads] is false in every state of a fetch: each
    critical section ends with [start_downloads]. *)
Lemma step_loop_cond e s s' :
  loop_cond s = false -> step e s = Some s' -> loop_cond s' = false.
Proof.
  intros Hc. destruct e as [|h st]; simpl.
  - unfold Downloader.consume. destruct (pc s); try done.
    + destruct (chunks s); by intros [= <-].
    + destruct (chunks s) as [|h rest]; [done|].
      destruct (promises s !! h) as [[| |]|]; try done; by intros [= <-].
    + destruct (stream chunk); [|done]. by intros [= <-].
    + destruct (chunks s); [done|]. intros [= <-]. apply start_downloads_exits.
  - unfold Downloader.callback.
    destruct (pc s); try done;
      destruct (transfers s !! h); try done;
      destruct (requests s !! h) as [[? ?]|]; try done;
      destruct st; simpl; intros [= <-]; try exact Hc;
      apply start_downloads_exits.
Qed.

Lemma reachable_loop_cond s : reachable s -> loop_cond s = false.
Proof.
  intros [evs Hrun]. revert Hrun.
  assert (Hi : loop_cond init = false) by apply start_downloads_exits.
  revert Hi. generalize init. induction evs as [|e evs IH]; intros s0 Hc; simpl.
  - by intros [= <-].
  - destruct (step e s0) as [s1|] eqn:He; [|done].
    apply IH. by eapply step_loop_cond.
Qed.


(** ** What start_downloads leaves alone *)

Lemma start_downloads_loop_requests fuel s :
  exists more, requests (start_downloads_loop fuel s) = requests s ++ more.
Proof.
  revert s. induction fuel as [|fuel IH]; intros s; simpl.
  - exists []. by rewrite app_nil_r.
  - destruct (loop_cond s).
    + destruct (IH (submit s)) as [more Hm]. simpl in Hm.
      eexists. rewrite Hm, <- app_assoc. done.
    + exists []. by rewrite app_nil_r.
Qed.

Lemma start_downloads_loop_chunks fuel s :
  exists more, chunks (start_downloads_loop fuel s) = chunks s ++ more.
Proof.
  revert s. induction fuel as [|fuel IH]; intros s; simpl.
  - exists []. by rewrite app_nil_r.
  - destruct (loop_cond s).
    + destruct (IH (submit s)) as [more Hm]. simpl in Hm.
      eexists. rewrite Hm, <- app_assoc. done.
    + exists []. by rewrite app_nil_r.
Qed.

Lemma start_downloads_loop_promises fuel s h :
  (h < length (requests s))%nat ->
  promises (start_downloads_loop fuel s) !! h = promises s !! h.
Proof.
  revert s. induction fuel as [|fuel IH]; intros s Hh; simpl; [done|].
  destruct (loop_cond s); [|done].
  rewrite IH; simpl.
  - rewrite lookup_insert_ne; [done|lia].
  - rewrite length_app. simpl. lia.
Qed.

Lemma start_downloads_loop_no_broken fuel s :
  no_broken s -> no_broken (start_downloads_loop fuel s).
Proof.
  revert s. induction fuel as [|fuel IH]; intros s Hnb; simpl; [done|].
  destruct (loop_cond s); [|done].
  apply IH. intros h e. simpl.
  destruct (decide (length (requests s) = h)) as [<-|Hne].
  - by rewrite lookup_insert_eq.
  - rewrite lookup_insert_ne by done. apply Hnb.
Qed.

Lemma step_no_broken e s s' :
  no_broken s -> benign e -> step e s = Some s' -> no_broken s'.
Proof.
  intros Hnb. destruct e as [|h st]; simpl.
  - intros _. unfold Downloader.consume. destruct (pc s); try done.
    + destruct (chunks s); by intros [= <-].
    + destruct (chunks s) as [|h rest]; [done|].
      destruct (promises s !! h) as [[| |]|]; try done; by intros [= <-].
    + destruct (stream chunk); [|done]. by intros [= <-].
    + destruct (chunks s); [done|]. intros [= <-].
      by apply start_downloads_loop_no_broken.
  - intros Hst. unfold Downloader.callback.
    destruct (pc s); try done;
      destruct (transfers s !! h); try done;
      destruct (requests s !! h) as [[? ?]|]; try done;
      destruct st; try done; simpl; intros [= <-]; try exact Hnb;
      apply start_downloads_loop_no_broken; try done;
      intros h' e; simpl;
      (destruct (decide (h = h')) as [<-|Hne];
       [by rewrite lookup_insert_eq
       |rewrite lookup_insert_ne by done; apply Hnb]).
Qed.

Lemma run_app evs1 evs2 s :
  run (evs1 ++ evs2) s = run evs1 s ≫= run evs2.
Proof.
  revert s. induction evs1 as [|e evs1 IH]; intros s; simpl; [done|].
  destruct (step e s); simpl; [apply IH|done].
Qed.

Lemma run_loop_cond evs s s' :
  loop_cond s = false -> run evs s = Some s' -> loop_cond s' = false.
Proof.
  revert s. induction evs as [|e evs IH]; intros s Hc; simpl.
  - by intros [= <-].
  - destruct (step e s) as [s1|] eqn:He; [|done].
    apply IH. by eapply step_loop_cond.
Qed.

Lemma run_no_broken evs s s' :
  no_broken s -> Forall benign evs -> run evs s = Some s' -> no_broken s'.
Proof.
  revert s. induction evs as [|e evs IH]; intros s Hnb Hb; simpl.
  - by intros [= <-].
  - destruct (step e s) as [s1|] eqn:He; [|done].
    inversion Hb; subst. apply IH; [|done]. by eapply step_no_broken.
Qed.

(** ** No chunk of a fetch ever completes *)

Lemma start_downloads_loop_nothing_completed fuel s :
  nothing_completed s -> nothing_completed (start_downloads_loop fuel s).
Proof.
  revert s. induction fuel as [|fuel IH]; intros s Hn; simpl; [done|].
  destruct (loop_cond s); [|done].
  apply IH. destruct Hn as (Hready & Hsink & Hpc).
  split; [|done]. intros h c. simpl.
  destruct (decide (length (requests s) = h)) as [<-|Hne].
  - by rewrite lookup_insert_eq.
  - rewrite lookup_insert_ne by done. apply Hready.
Qed.

Lemma step_nothing_completed e s s' :
  nothing_completed s -> step e s = Some s' -> nothing_completed s'.
Proof.
  intros Hn. pose proof Hn as (Hready & Hsink & Hpc).
  destruct e as [|h st]; simpl.
  - unfold Downloader.consume. destruct (pc s) eqn:Hpcs; try done.
    + destruct (chunks s); by intros [= <-].
    + destruct (chunks s) as [|h rest]; [done|].
      destruct (promises s !! h) as [[|c|e]|] eqn:Hp; try done.
      * by destruct (Hready h c).
      * by intros [= <-].
  - unfold Downloader.callback.
    destruct (pc s) eqn:Hpcs; try done;
      destruct (transfers s !! h); try done;
      destruct (requests s !! h) as [[? ?]|]; try done;
      destruct st; simpl; intros [= <-]; try exact Hn;
      apply start_downloads_loop_nothing_completed; try done;
      (split; [|by simpl; rewrite Hpcs]); intros h' c'; simpl;
      (destruct (decide (h = h')) as [<-|Hne];
       [by rewrite lookup_insert_eq
       |rewrite lookup_insert_ne by done; apply Hready]).
Qed.

Lemma run_nothing_completed evs s s' :
  nothing_completed s -> run evs s = Some s' -> nothing_completed s'.
Proof.
  revert s. induction evs as [|e evs IH]; intros s Hn; simpl.
  - by intros [= <-].
  - destruct (step e s) as [s1|] eqn:He; [|done].
    apply IH. by eapply step_nothing_completed.
Qed.

Lemma init_nothing_completed : nothing_completed init.
Proof.
  apply start_downloads_loop_nothing_completed.
  split; [|done]. intros h c. simpl. by rewrite lookup_empty.
Qed.

Lemma init_no_broken : no_broken init.
Proof.
  apply start_downloads_loop_no_broken. intros h e. simpl.
  by rewrite lookup_empty.
Qed.

(** ** What has been delivered when the fetch returns *)

Lemma returned_delivered s :
  Inv s -> loop_cond s = false -> pc s = Returned ->
  sink s = bodies_upto range_body (length (requests s))
  /\ object_size <= N.of_nat (length (requests s)) * chunk_size
  /\ transfers s = ∅.
Proof.
  intros HI Hc Hpc.
  pose proof (inv_pc _ _ _ HI) as Hcs. rewrite Hpc in Hcs.
  pose proof (inv_chunks _ _ _ HI) as Hch.
  pose proof (inv_popped _ _ _ HI) as Hpop.
  unfold popped in *. rewrite Hpc in *. rewrite Hcs in Hch.
  assert (Hlen : length (sink s) = length (requests s)).
  { destruct (length (requests s) - length (sink s))%nat eqn:Hd; [lia|done]. }
  assert (Htr : transfers s = ∅).
  { apply map_empty. intros h. apply eq_None_not_Some. intros Hs.
    apply (inv_transfers _ _ _ HI) in Hs as [Hin _]. rewrite Hcs in Hin.
    by apply elem_of_nil in Hin. }
  split; [|split; [|done]].
  - rewrite <- Hlen. apply (inv_sink _ _ _ HI).
  - destruct (N.lt_ge_cases (N.of_nat (length (requests s)) * chunk_size)
                object_size) as [Hlt|]; [|done].
    assert (Ht : loop_cond s = true); [|congruence].
    apply loop_cond_true. rewrite (inv_cursor _ _ _ HI), Htr, Hcs.
    rewrite map_size_empty. simpl. unfold max_transfers, max_chunks. lia.
Qed.


(** ** A failed chunk stays failed, and stays in the queue *)

Lemma step_broken_stable ev s s' h e :
  Inv s -> promises s !! h = Some (Broken e) -> step ev s = Some s' ->
  promises s' !! h = Some (Broken e).
Proof.
  intros HI Hb.
  assert (Hlt : (h < length (requests s))%nat).
  { eapply chunks_lt_requests; [done|]. by eapply inv_broken. }
  destruct ev as [|h' st]; simpl.
  - unfold Downloader.consume. destruct (pc s); try done.
    + destruct (chunks s); by intros [= <-].
    + destruct (chunks s) as [|h0 rest]; [done|].
      destruct (promises s !! h0) as [[| |]|]; try done; by intros [= <-].
    + destruct (stream chunk); [|done]. by intros [= <-].
    + destruct (chunks s); [done|]. intros [= <-].
      unfold Downloader.start_downloads.
      by rewrite start_downloads_loop_promises.
  - unfold Downloader.callback.
    destruct (pc s); try done;
      destruct (transfers s !! h') as [c|] eqn:Hc; try done;
      destruct (requests s !! h') as [[? ?]|]; try done;
      (assert (Hne : h' <> h);
       [ intros ->;
         destruct (proj1 (inv_transfers _ _ _ HI h) (mk_is_Some _ _ Hc));
         congruence |]);
      destruct st; simpl; intros [= <-]; try exact Hb;
      unfold Downloader.start_downloads;
      rewrite start_downloads_loop_promises by done; simpl;
      rewrite ?lookup_insert_ne by done; done.
Qed.

Lemma run_broken_stable evs s s' h e :
  Inv s -> promises s !! h = Some (Broken e) -> run evs s = Some s' ->
  promises s' !! h = Some (Broken e).
Proof.
  revert s. induction evs as [|ev evs IH]; intros s HI Hb; simpl.
  - by intros [= <-].
  - destruct (step ev s) as [s1|] eqn:He; [|done].
    apply IH; [by eapply step_Inv | by eapply step_broken_stable].
Qed.

Lemma callback_breaks s s' h st :
  succeeding st = false -> callback h st s = Some s' ->
  promises s' !! h = Some (Broken (runtime_error "Error from AWS")).
Proof.
  intros Hst. unfold Downloader.callback.
  destruct (pc s); try done;
    destruct (transfers s !! h); try done;
    destruct (requests s !! h) as [[? ?]|] eqn:Hr; try done;
    apply lookup_lt_Some in Hr;
    destruct st; try done; intros [= <-]; unfold Downloader.start_downloads;
    rewrite start_downloads_loop_promises by done; simpl;
    by rewrite lookup_insert_eq.
Qed.

Lemma sink_below_broken s h e :
  Inv s -> promises s !! h = Some (Broken e) -> (length (sink s) <= h)%nat.
Proof.
  intros HI Hb.
  pose proof (inv_broken _ _ _ HI h e Hb) as Hin.
  pose proof (inv_chunks _ _ _ HI) as Hch.
  pose proof (inv_pc _ _ _ HI) as Hpc.
  rewrite Hch in Hin. apply elem_of_seq in Hin.
  unfold popped in *. destruct (pc s) eqn:Hpcs; try lia.
  destruct Hpc as (Hne & h0 & rest & c & Hcs & Hp).
  rewrite Hcs in Hch. symmetry in Hch.
  apply seq_cons_inv in Hch as (-> & _ & _).
  assert (h <> pred (length (sink s))) by congruence.
  lia.
Qed.

Lemma lookup_bodies_upto n i view :
  bodies_upto range_body n !! i = Some view ->
  (i < n)%nat /\ view = range_body (N.of_nat i * chunk_size) chunk_size.
Proof.
  unfold bodies_upto. rewrite list_lookup_fmap. intros Hl.
  destruct (seq 0 n !! i) as [j|] eqn:Hj; [|done].
  apply lookup_seq in Hj as [-> Hlt]. simpl in Hl. by inversion Hl.
Qed.

End Pipeline.


(** ** The ranged GET of the remote store *)

Lemma takeN_take {A} n (l : list A) : takeN n l = take (N.to_nat n) l.
Proof.
  revert n. induction l as [|x l IH]; intros n; simpl.
  - by rewrite take_nil.
  - destruct (N.eqb_spec n 0) as [->|Hn]; [done|].
    rewrite IH. replace (N.to_nat n) with (S (N.to_nat (N.pred n))) by lia.
    done.
Qed.

Lemma dropN_drop {A} n (l : list A) : dropN n l = drop (N.to_nat n) l.
Proof.
  revert n. induction l as [|x l IH]; intros n; simpl.
  - by rewrite drop_nil.
  - destruct (N.eqb_spec n 0) as [->|Hn]; [done|].
    rewrite IH. replace (N.to_nat n) with (S (N.to_nat (N.pred n))) by lia.
    done.
Qed.

Lemma length_s3_range obj off len :
  N.of_nat (length (s3_range obj off len))
  = N.min len (N.of_nat (length obj) - off).
Proof.
  unfold s3_range. rewrite takeN_take, dropN_drop, length_take, length_drop.
  lia.
Qed.

Lemma concat_bodies_upto obj n :
  concat (bodies_upto (s3_range obj) n)
  = takeN (N.of_nat n * chunk_size) obj.
Proof.
  induction n as [|n IH].
  - simpl. by destruct obj.
  - rewrite bodies_upto_S, concat_app, IH. simpl. rewrite app_nil_r.
    unfold s3_range. rewrite !takeN_take, dropN_drop, take_take_drop.
    f_equal. lia.
Qed.

Lemma takeN_all {A} n (l : list A) : N.of_nat (length l) <= n -> takeN n l = l.
Proof. intros Hn. rewrite takeN_take. apply take_ge. lia. Qed.

Lemma getObjectSize_of_length key (obj : bytes) :
  N.of_nat (length obj) < size_t_max ->
  getObjectSize key (Success (Z.of_nat (length obj)))
  = Ok (N.of_nat (length obj)).
Proof.
  intros Hfit. unfold getObjectSize. simpl. f_equal.
  unfold size_t_max in Hfit.
  rewrite Z.mod_small; lia.
Qed.

Lemma getObjectSize_fits key head n :
  getObjectSize key head = Ok n -> n < size_t_max.
Proof.
  unfold getObjectSize. destruct head as [len|err msg]; simpl; [|done].
  intros [= <-]. unfold size_t_max.
  pose proof (Z.mod_pos_bound len (2 ^ 64) ltac:(lia)). lia.
Qed.

(** What a fetch that returned has given to the sink. *)
Lemma getObject_returned key head range_body evs elapsed res snk :
  getObject key head range_body evs elapsed = Some (Ok res, snk) ->
  exists object_size s,
    getObjectSize key head = Ok object_size
    /\ run object_size range_body evs (init object_size) = Some s
    /\ pc s = Returned /\ snk = sink s
    /\ res = transfer_result object_size elapsed.
Proof.
  unfold getObject. destruct (getObjectSize key head) as [n|e]; [|done].
  destruct (run n range_body evs (init n)) as [s|] eqn:Hrun; [|done].
  destruct (pc s) eqn:Hpc; try done. intros [= <- <-]. by exists n, s.
Qed.

Lemma returned_sink object_size range_body evs s :
  object_size < size_t_max ->
  run object_size range_body evs (init object_size) = Some s ->
  pc s = Returned ->
  sink s = bodies_upto range_body (length (sink s))
  /\ object_size <= N.of_nat (length (sink s)) * chunk_size
  /\ (forall i, (i < length (sink s))%nat ->
        N.of_nat i * chunk_size < object_size).
Proof.
  intros Hfit Hrun Hpc.
  assert (HI : Inv object_size range_body s).
  { eapply run_Inv; [done| |done]. by apply init_Inv. }
  assert (Hc : loop_cond object_size s = false).
  { eapply run_loop_cond; [done| |done]. by apply start_downloads_exits. }
  destruct (returned_delivered _ _ Hfit s HI Hc Hpc) as (Hsink & Hle & _).
  assert (Hlen : length (sink s) = length (requests s)).
  { rewrite Hsink at 1. unfold bodies_upto.
    by rewrite length_fmap, length_seq. }
  rewrite Hlen. split; [done|]. split; [done|].
  apply (inv_offsets _ _ _ HI).
Qed.

(** ** An object of size 0 *)

Lemma init_zero : init 0 = empty_state.
Proof. reflexivity. Qed.

Lemma run_zero range_body evs s :
  run 0 range_body evs (init 0) = Some s ->
  (s = empty_state /\ evs = [])
  \/ (s = with_pc Returned empty_state /\ evs = [Consume]).
Proof.
  rewrite init_zero. destruct evs as [|e evs]; simpl.
  - intros [= <-]. by left.
  - destruct e as [|h st]; simpl; [|done].
    destruct evs as [|e evs]; simpl.
    + intros [= <-]. by right.
    + by destruct e.
Qed.


(** ** The requests of a fetch, and the wait under the mutex *)

(** Every range request of a fetch starts at a multiple of [chunk_size]
    below the object size and asks for [chunk_size] bytes. *)
Lemma requests_ask_chunk_size object_size range_body s h off len :
  object_size < size_t_max ->
  reachable object_size range_body s ->
  requests s !! h = Some (off, len) ->
  off = N.of_nat h * chunk_size /\ len = chunk_size /\ off < object_size.
Proof.
  intros Hfit Hs Hr. apply reachable_Inv in Hs; [|done].
  rewrite (inv_requests _ _ _ Hs) in Hr.
  apply lookup_lt_Some in Hr as Hlt. rewrite length_reqs_upto in Hlt.
  rewrite lookup_reqs_upto in Hr by done. injection Hr as <- <-.
  split; [done|]. split; [done|]. by apply (inv_offsets _ _ _ Hs).
Qed.

(** While the calling thread waits inside [get()] it holds the mutex: no
    callback runs, and if the oldest future is pending nothing moves. *)
Lemma wait_blocks_every_move object_size range_body s h rest e :
  pc s = InGet -> chunks s = h :: rest -> promises s !! h = Some Pending ->
  step object_size range_body e s = None.
Proof.
  intros Hpc Hcs Hp. destruct e as [|h' st]; simpl.
  - unfold consume. by rewrite Hpc, Hcs, Hp.
  - unfold callback. by rewrite Hpc.
Qed.

(** ** What a fetch of a non-empty object comes to *)

Lemma callback_COMPLETED_changes_nothing object_size range_body h s s' :
  callback object_size range_body h COMPLETED s = Some s' -> s' = s.
Proof.
  unfold callback.
  destruct (pc s); try done;
    destruct (transfers s !! h); try done;
    destruct (requests s !! h) as [[? ?]|]; try done;
    simpl; by intros [= <-].
Qed.

Lemma callback_pc object_size range_body h st s s' :
  callback object_size range_body h st s = Some s' ->
  pc s' = pc s
  /\ match pc s with AtLoop | AtSink _ | AtPop => True | _ => False end.
Proof.
  unfold callback.
  destruct (pc s) eqn:Hpc; try done;
    destruct (transfers s !! h); try done;
    destruct (requests s !! h) as [[? ?]|]; try done;
    destruct st; simpl; intros [= <-]; try done;
    unfold start_downloads; by rewrite start_downloads_loop_pc.
Qed.

Lemma run_init_nothing_completed object_size range_body evs s :
  run object_size range_body evs (init object_size) = Some s ->
  nothing_completed s.
Proof.
  apply run_nothing_completed, init_nothing_completed.
Qed.

Lemma nonempty_never_returns object_size range_body evs s :
  0 < object_size -> object_size < size_t_max ->
  run object_size range_body evs (init object_size) = Some s ->
  pc s <> Returned.
Proof.
  intros Hpos Hfit Hrun Hpc.
  assert (HI : Inv object_size range_body s).
  { eapply run_Inv; [done| |done]. by apply init_Inv. }
  assert (Hc : loop_cond object_size s = false).
  { eapply run_loop_cond; [done| |done]. by apply start_downloads_exits. }
  destruct (returned_delivered _ _ Hfit s HI Hc Hpc) as (Hsink & Hle & _).
  destruct (run_init_nothing_completed _ _ _ _ Hrun) as (_ & Hempty & _).
  rewrite Hempty in Hsink.
  destruct (length (requests s)) as [|n]; [lia|].
  by rewrite bodies_upto_S in Hsink; destruct (bodies_upto range_body n).
Qed.

(** Once the calling thread waits on a pending chunk the run is over. *)
Lemma run_after_blocked_wait object_size range_body s h rest evs s' :
  pc s = InGet -> chunks s = h :: rest -> promises s !! h = Some Pending ->
  run object_size range_body evs s = Some s' -> s' = s.
Proof.
  intros Hpc Hcs Hp. destruct evs as [|e evs]; simpl; [by intros [= <-]|].
  by rewrite (wait_blocks_every_move _ _ s h rest e Hpc Hcs Hp).
Qed.


End DownloaderFacts.


(** * Properties of the store *)

Module StoreFacts.
Import Store.

(** ** Strings *)

Lemma append_cons c (a b : string) : String c a +:+ b = String c (a +:+ b).
Proof. reflexivity. Qed.

Lemma length_append (a b : string) :
  String.length (a +:+ b) = (String.length a + String.length b)%nat.
Proof. induction a as [|c a IH]; simpl; [done|]. by rewrite IH. Qed.

Lemma substring_full (s : string) : String.substring 0 (String.length s) s = s.
Proof. induction s as [|c s IH]; simpl; [done|]. by rewrite IH. Qed.

Lemma substring_append_l (a b : string) :
  String.substring 0 (String.length a) (a +:+ b) = a.
Proof.
  induction a as [|c a IH]; simpl.
  - by destruct b.
  - by rewrite IH.
Qed.

Lemma substring_append_r (a b : string) :
  String.substring (String.length a) (String.length b) (a +:+ b) = b.
Proof. induction a as [|c a IH]; simpl; [apply substring_full|done]. Qed.

Lemma substring_split (s : string) (n : nat) :
  (n <= String.length s)%nat ->
  s = String.substring 0 n s
      +:+ String.substring n (String.length s - n) s.
Proof.
  revert n. induction s as [|c s IH]; intros n Hn; simpl in *.
  - by destruct n.
  - destruct n as [|n]; simpl.
    + by rewrite substring_full.
    + rewrite append_cons. f_equal. apply IH. lia.
Qed.

Lemma length_substring_0 (s : string) (n : nat) :
  (n <= String.length s)%nat -> String.length (String.substring 0 n s) = n.
Proof.
  revert n. induction s as [|c s IH]; intros n Hn; simpl in *.
  - destruct n; [done|lia].
  - destruct n as [|n]; simpl; [done|]. rewrite IH; [done|lia].
Qed.

(** ** The filter of the listing *)

Lemma skipped_false (key : string) :
  skipped key = false <->
  String.length key = 40%nat /\ hasSuffix key ".narinfo" = true.
Proof.
  unfold skipped. rewrite orb_false_iff, !negb_false_iff, Nat.eqb_eq. done.
Qed.

Lemma hasSuffix_append (a b : string) : hasSuffix (a +:+ b) b = true.
Proof.
  unfold hasSuffix. rewrite length_append. apply andb_true_iff. split.
  - apply Nat.leb_le. lia.
  - replace (String.length a + String.length b - String.length b)%nat
      with (String.length a) by lia.
    rewrite substring_append_r. apply String.eqb_refl.
Qed.

Lemma hasSuffix_split (s suffix : string) :
  hasSuffix s suffix = true ->
  s = String.substring 0 (String.length s - String.length suffix) s +:+ suffix.
Proof.
  unfold hasSuffix. rewrite andb_true_iff, Nat.leb_le, String.eqb_eq.
  intros [Hle Heq].
  rewrite (substring_split s (String.length s - String.length suffix)) at 1
    by lia.
  f_equal. rewrite <- Heq at 3. f_equal. lia.
Qed.

(** A key passes the filter exactly when it is a 32-character component
    followed by ".narinfo". *)
Lemma qualifies_iff (key : string) :
  skipped key = false <->
  exists hash, String.length hash = 32%nat /\ key = hash +:+ ".narinfo".
Proof.
  rewrite skipped_false. split.
  - intros [Hlen Hsuf]. apply hasSuffix_split in Hsuf. rewrite Hlen in Hsuf.
    exists (String.substring 0 32 key). split; [|done].
    apply length_substring_0. lia.
  - intros (hash & Hlen & ->). split.
    + rewrite length_append, Hlen. done.
    + apply hasSuffix_append.
Qed.

Section Enumerator.

Context {StorePath : Type} `{Countable StorePath}.
Variable parseStorePath : string -> result StorePath.
Variable storeDir : string.
Variable MissingName : string.

Lemma decode_qualified (hash : string) :
  String.length hash = 32%nat ->
  decode storeDir MissingName (hash +:+ ".narinfo")
  = storeDir +:+ "/" +:+ hash +:+ "-" +:+ MissingName.
Proof.
  intros Hlen. unfold decode. rewrite length_append, Hlen. simpl.
  replace 32%nat with (String.length hash) at 1. by rewrite substring_append_l.
Qed.

(** The paths of a page that was read to its end: those there before, and
    the parsed decodings of the keys that pass the filter. *)
Lemma scan_page_paths (contents : list string) (paths paths' : gset StorePath) :
  scan_page parseStorePath storeDir MissingName contents paths = Ok paths' ->
  forall p, p ∈ paths' <->
    p ∈ paths \/
    exists key, key ∈ contents /\ skipped key = false
      /\ parseStorePath (decode storeDir MissingName key) = Ok p.
Proof.
  revert paths. induction contents as [|key rest IH]; intros paths; simpl.
  - intros [= <-] p. split; [by left|].
    intros [Hp|(key & Hin & _)]; [done|]. by apply elem_of_nil in Hin.
  - destruct (skipped key) eqn:Hs.
    + intros Hscan p. rewrite (IH _ Hscan). split.
      * intros [Hp|(k & Hin & Hk & Hparse)]; [by left|].
        right. exists k. split; [by right|done].
      * intros [Hp|(k & Hin & Hk & Hparse)]; [by left|].
        apply elem_of_cons in Hin as [->|Hin]; [congruence|].
        right. by exists k.
    + destruct (parseStorePath (decode storeDir MissingName key)) as [q|e]
        eqn:Hparse; [|done].
      intros Hscan p. rewrite (IH _ Hscan), elem_of_union, elem_of_singleton.
      split.
      * intros [[->|Hp]|(k & Hin & Hk & Hpk)].
        -- right. exists key. split; [by left|done].
        -- by left.
        -- right. exists k. split; [by right|done].
      * intros [Hp|(k & Hin & Hk & Hpk)]; [by left; right|].
        apply elem_of_cons in Hin as [->|Hin].
        -- left. left. congruence.
        -- right. by exists k.
Qed.

End Enumerator.

(** ** The upload *)

Lemma new_store_ok cfg : store_ok cfg new_store.
Proof.
  unfold store_ok, new_store. simpl. split; [by intros [? ?]|by intros [? _]].
Qed.

Lemma create_transfer_manager_spec cfg st :
  store_ok cfg st ->
  transferManagerCreated (create_transfer_manager cfg st) = true
  /\ (is_Some (transferManager (create_transfer_manager cfg st))
      <-> multipartUpload cfg = true)
  /\ stats (create_transfer_manager cfg st) = stats st
  /\ network (create_transfer_manager cfg st) = network st.
Proof.
  intros Hok. unfold create_transfer_manager, store_ok in *.
  destruct (transferManagerCreated st) eqn:Hflag.
  - split; [done|]. split; [|done]. rewrite Hok. tauto.
  - simpl. split; [done|]. split; [|done].
    destruct (multipartUpload cfg) eqn:Hm.
    + split; [done|]. intros _. by eexists.
    + rewrite Hok. split; [by intros [? _]|done].
Qed.

Lemma uploadFile_store_ok cfg path mimeType contentEncoding env st :
  store_ok cfg st ->
  store_ok cfg (snd (uploadFile cfg path mimeType contentEncoding env st)).
Proof.
  intros Hok.
  destruct (create_transfer_manager_spec cfg st Hok) as (Hflag & Htm & _ & _).
  assert (Hok1 : store_ok cfg (create_transfer_manager cfg st)).
  { unfold store_ok. rewrite Htm, Hflag. tauto. }
  unfold uploadFile.
  destruct (transferManager (create_transfer_manager cfg st)) eqn:Hengine.
  - destruct (String.eqb contentEncoding ""); [|done].
    destruct (final_status env); simpl; apply Hok1.
  - destruct (checkAws _ (put_outcome env)); simpl; apply Hok1.
Qed.

End StoreFacts.

(** * The properties of the specification *)

Import Downloader DownloaderFacts Instances.

(** C1. For an object that is not empty nothing ever reaches the sink and
    the fetch never returns: a callback in status COMPLETED leaves the state
    as it is ([complete()] throws before the promise is fulfilled), so in
    every state of the fetch no promise holds a chunk and the sink is
    empty, under no schedule does [getObject] return a result, and whenever
    the call comes back it has thrown the failure of a chunk with the sink
    still empty. *)
Theorem C1_nothing_of_a_nonempty_object_reaches_the_sink
    (key : string) (head : Outcome Z) (range_body : N -> N -> bytes)
    (object_size elapsed : N) (evs : list event) :
  getObjectSize key head = Ok object_size ->
  0 < object_size ->
  (forall h s s',
     callback object_size range_body h COMPLETED s = Some s' -> s' = s)
  /\ (forall s,
        run object_size range_body evs (init object_size) = Some s ->
        sink s = []
        /\ (forall h c, promises s !! h <> Some (Ready c))
        /\ pc s <> Returned)
  /\ (forall res snk,
        getObject key head range_body evs elapsed <> Some (Ok res, snk))
  /\ (forall r snk,
        getObject key head range_body evs elapsed = Some (r, snk) ->
        r = Throw (runtime_error "Error from AWS") /\ snk = []).
Proof.
  intros Hsize Hpos.
  pose proof (getObjectSize_fits _ _ _ Hsize) as Hfit.
  assert (Hstates : forall s,
            run object_size range_body evs (init object_size) = Some s ->
            sink s = []
            /\ (forall h c, promises s !! h <> Some (Ready c))
            /\ pc s <> Returned).
  { intros s Hrun.
    destruct (run_init_nothing_completed _ _ _ _ Hrun) as (Hready & Hsink & _).
    split; [done|]. split; [done|]. by eapply nonempty_never_returns. }
  split; [intros h s s'; apply callback_COMPLETED_changes_nothing|].
  split; [done|]. split.
  - intros res snk. unfold getObject. rewrite Hsize.
    destruct (run object_size range_body evs (init object_size)) as [s|]
      eqn:Hrun; [|done].
    destruct (Hstates s eq_refl) as (_ & _ & Hpc).
    by destruct (pc s).
  - intros r snk. unfold getObject. rewrite Hsize.
    destruct (run object_size range_body evs (init object_size)) as [s|]
      eqn:Hrun; [|done].
    destruct (Hstates s eq_refl) as (Hsink & _ & Hpc).
    assert (HI : Inv object_size range_body s).
    { eapply run_Inv; [done| |done]. by apply init_Inv. }
    pose proof (inv_pc _ _ _ HI) as Hp.
    destruct (pc s) eqn:Hpcs; try done. intros [= <- <-].
    destruct Hp as (h & rest & _ & Hp).
    by rewrite (inv_exn _ _ _ HI _ _ Hp).
Qed.

(** C2. The failure of a chunk that is not the oldest of the queue is not
    raised: when the callback has failed chunk [h] (its promise holds the
    failure) and the calling thread then waits on the oldest chunk, whose
    transfer is still pending, the call never comes back, whatever happens
    next: it neither fails nor returns. *)
Theorem C2_failure_of_a_later_chunk_is_not_raised
    (key : string) (head : Outcome Z) (range_body : N -> N -> bytes)
    (object_size elapsed : N)
    (evs1 evs2 : list event) (h h0 : nat) (st : TransferStatus) (s1 : state) :
  getObjectSize key head = Ok object_size ->
  succeeding st = false ->
  run object_size range_body (evs1 ++ [Callback h st]) (init object_size)
  = Some s1 ->
  chunks s1 !! 0%nat = Some h0 ->
  promises s1 !! h0 = Some Pending ->
  promises s1 !! h = Some (Broken (runtime_error "Error from AWS"))
  /\ h <> h0
  /\ run object_size range_body (evs1 ++ Callback h st :: Consume :: evs2)
       (init object_size)
     = (if evs2 is [] then Some (with_pc InGet s1) else None)
  /\ getObject key head range_body (evs1 ++ Callback h st :: Consume :: evs2)
       elapsed
     = None.
Proof.
  intros Hsize Hst Hrun Hfront Hpending.
  pose proof (getObjectSize_fits _ _ _ Hsize) as Hfit.
  pose proof (run_init_nothing_completed _ _ _ _ Hrun) as (_ & _ & Hpcn).
  rewrite run_app in Hrun.
  destruct (run object_size range_body evs1 (init object_size)) as [s0|] eqn:H0;
    [|done].
  simpl in Hrun.
  destruct (callback object_size range_body h st s0) as [s'|] eqn:Hcb; [|done].
  injection Hrun as ->.
  pose proof (callback_breaks _ _ Hfit _ _ _ _ Hst Hcb) as Hb.
  destruct (callback_pc _ _ _ _ _ _ Hcb) as [Hsame Hnot].
  assert (Hpc : pc s1 = AtLoop).
  { rewrite <- Hsame in Hnot. by destruct (pc s1). }
  destruct (chunks s1) as [|h0' rest] eqn:Hcs; [done|].
  injection Hfront as ->.
  assert (Hstep : consume object_size s1 = Some (with_pc InGet s1)).
  { unfold consume. by rewrite Hpc, Hcs. }
  assert (Hstuck : forall e,
            step object_size range_body e (with_pc InGet s1) = None).
  { intros e. by eapply wait_blocks_every_move. }
  assert (Hrun2 : run object_size range_body
                    (evs1 ++ Callback h st :: Consume :: evs2)
                    (init object_size)
                  = (if evs2 is [] then Some (with_pc InGet s1) else None)).
  { rewrite run_app, H0. simpl. rewrite Hcb, Hstep.
    destruct evs2 as [|e evs2]; simpl; [done|]. by rewrite Hstuck. }
  split; [done|]. split; [congruence|]. split; [done|].
  unfold getObject. rewrite Hsize, Hrun2. by destruct evs2.
Qed.

(** C3. In every state of a chunked fetch at most 3 transfers are in flight
    and at most 5 chunks are completed and not yet taken off the queue; a
    turn of [start_downloads] opens a range request exactly when the cursor
    is below the object size, fewer than 3 transfers are in flight and the
    queue holds fewer than 5 chunks, and stops otherwise; each request
    opened moves the cursor strictly forward. *)
Theorem C3_window_bounds (object_size : N) (range_body : N -> N -> bytes) :
  object_size < size_t_max ->
  (forall s, reachable object_size range_body s ->
     (in_flight s <= 3)%nat /\ (buffered s <= 5)%nat)
  /\ (forall s,
        loop_cond object_size s = true <->
        next_chunk_offset s < object_size
        /\ (in_flight s < 3)%nat /\ (length (chunks s) < 5)%nat)
  /\ (forall fuel s,
        start_downloads_loop object_size (S fuel) s
        = if loop_cond object_size s
          then start_downloads_loop object_size fuel (submit object_size s)
          else s)
  /\ (forall s, loop_cond object_size (start_downloads object_size s) = false)
  /\ (forall s, loop_cond object_size s = true ->
        next_chunk_offset s < next_chunk_offset (submit object_size s)
        /\ requests (submit object_size s)
           = requests s ++ [(next_chunk_offset s, chunk_size)]).
Proof.
  intros Hfit. split; [|split; [|split; [|split]]].
  - intros s Hs. apply reachable_Inv in Hs; [|done].
    split; [apply (inv_in_flight _ _ _ Hs)|].
    unfold buffered. etrans; [apply filter_length_le|].
    apply (inv_queue _ _ _ Hs).
  - intros s. by apply loop_cond_true.
  - done.
  - intros s. by apply start_downloads_exits.
  - intros s Hc. apply loop_cond_true in Hc as (Hlt & _ & _); [|done].
    split; [|done]. simpl. rewrite advance_cursor by done.
    unfold chunk_size. lia.
Qed.

(** C4 (as amended). Whenever the chunked [getObject] returns a result, as
    it does for an object of size 0 at the calling thread's first move,
    that result carries no [data] (only [data_size] is set) and [getFile]
    throws [NoSuchBinaryCacheFile], the call counted and nothing added to
    the bytes fetched; when the metadata probe fails, [getFile] throws the
    [S3Error] of the probe instead. *)
Theorem C4_getFile_throws_when_getObject_returns
    (uri path : string) (head : Outcome Z) (range_body : N -> N -> bytes)
    (elapsed : N) (stats : Store.Stats) :
  (getObjectSize path head = Ok 0 ->
   exists stats',
     Fetch.getFile_call uri path head range_body [Consume] elapsed stats
     = Some (Throw (NoSuchBinaryCacheFile
                      ("file '" +:+ path
                       +:+ "' does not exist in binary cache '"
                       +:+ uri +:+ "'")),
             stats', [])
     /\ Store.get stats' = Store.u64 (Store.get stats + 1)
     /\ Store.getBytes stats' = Store.u64 (Store.getBytes stats + 0))
  /\ (forall evs res snk,
        getObject path head range_body evs elapsed = Some (Ok res, snk) ->
        data res = None
        /\ is_Some (data_size res)
        /\ exists stats',
             Fetch.getFile_call uri path head range_body evs elapsed stats
             = Some (Throw (NoSuchBinaryCacheFile
                              ("file '" +:+ path
                               +:+ "' does not exist in binary cache '"
                               +:+ uri +:+ "'")),
                     stats', snk)
             /\ Store.get stats' = Store.u64 (Store.get stats + 1)
             /\ Store.getBytes stats' = Store.u64 (Store.getBytes stats + 0))
  /\ (forall err message evs,
        head = Failure err message ->
        exists stats',
          Fetch.getFile_call uri path head range_body evs elapsed stats
          = Some (Throw (S3Error err
                           (("AWS error checking object size '" +:+ path
                             +:+ "'") +:+ ": " +:+ message)),
                  stats', [])
          /\ Store.get stats' = Store.u64 (Store.get stats + 1)
          /\ Store.getBytes stats' = Store.getBytes stats).
Proof.
  split; [|split].
  - intros Hsize. unfold Fetch.getFile_call, getObject. rewrite Hsize.
    simpl. by eexists.
  - intros evs res snk Hget. unfold Fetch.getFile_call. rewrite Hget.
    apply getObject_returned in Hget as (n & s & _ & _ & _ & _ & ->).
    simpl. split; [done|]. split; [by eexists|]. by eexists.
  - intros err message evs ->. unfold Fetch.getFile_call, getObject. simpl.
    by eexists.
Qed.

(** C5 (as amended). A key of a page passes the filter exactly when it is 40
    characters long in all and ends in ".narinfo", that is when it is a
    32-character component followed by ".narinfo"; such a key is decoded to
    the store directory, "/", that component, "-" and the placeholder name,
    which is parsed into a store path; the paths after a page are those
    before it and the paths decoded from the keys that pass, every other key
    adding nothing. *)
Theorem C5_listing_keeps_narinfo_keys_of_length_40
    {StorePath : Type} `{Countable StorePath}
    (parseStorePath : string -> result StorePath)
    (storeDir MissingName : string)
    (contents : list string) (paths paths' : gset StorePath) :
  Store.scan_page parseStorePath storeDir MissingName contents paths = Ok paths' ->
  (forall key,
     Store.skipped key = false <->
     String.length key = 40%nat /\ Store.hasSuffix key ".narinfo" = true)
  /\ (forall key,
        Store.skipped key = false <->
        exists hash, String.length hash = 32%nat /\ key = hash +:+ ".narinfo")
  /\ (forall hash, String.length hash = 32%nat ->
        Store.decode storeDir MissingName (hash +:+ ".narinfo")
        = storeDir +:+ "/" +:+ hash +:+ "-" +:+ MissingName)
  /\ (forall p, p ∈ paths' <->
        p ∈ paths \/
        exists hash,
          (hash +:+ ".narinfo") ∈ contents /\ String.length hash = 32%nat
          /\ parseStorePath (storeDir +:+ "/" +:+ hash +:+ "-" +:+ MissingName)
             = Ok p).
Proof.
  intros Hscan.
  split; [apply StoreFacts.skipped_false|].
  split; [apply StoreFacts.qualifies_iff|].
  split; [apply StoreFacts.decode_qualified|].
  intros p. rewrite (StoreFacts.scan_page_paths _ _ _ _ _ _ Hscan). split.
  - intros [Hp|(key & Hin & Hk & Hparse)]; [by left|]. right.
    apply StoreFacts.qualifies_iff in Hk as (hash & Hlen & ->).
    exists hash. by rewrite <- (StoreFacts.decode_qualified storeDir MissingName).
  - intros [Hp|(hash & Hin & Hlen & Hparse)]; [by left|]. right.
    exists (hash +:+ ".narinfo"). split; [done|]. split.
    + apply StoreFacts.qualifies_iff. by exists hash.
    + by rewrite StoreFacts.decode_qualified.
Qed.

(** C6. [fileExists] returns true exactly when the HEAD request succeeds,
    returns false exactly when it fails as RESOURCE_NOT_FOUND, NO_SUCH_KEY
    or ACCESS_DENIED, and throws an error carrying the message of the
    failure for every other failure. *)
Theorem C6_fileExists_soft_and_hard_failures
    (path : string) (stats : Store.Stats) (res : Outcome unit) :
  (fst (Store.fileExists path stats res) = Ok true <->
   exists r, res = Success r)
  /\ (fst (Store.fileExists path stats res) = Ok false <->
      exists err message,
        res = Failure err message
        /\ (err = RESOURCE_NOT_FOUND \/ err = NO_SUCH_KEY \/ err = ACCESS_DENIED))
  /\ (forall err message,
        res = Failure err message ->
        err <> RESOURCE_NOT_FOUND -> err <> NO_SUCH_KEY -> err <> ACCESS_DENIED ->
        fst (Store.fileExists path stats res)
        = Throw (Error ("AWS error fetching '" +:+ path +:+ "': " +:+ message))).
Proof.
  destruct res as [r|err message]; simpl.
  - split; [split; [by exists r|done]|]. split; [|done].
    split; [done|]. by intros (? & ? & ? & _).
  - split; [|split].
    + split; [by destruct err|]. by intros [? ?].
    + split.
      * destruct err; try done; intros _; eexists _, message; split; eauto.
      * intros (e & m & [= -> ->] & [->| [->| ->]]); done.
    + intros e m [= -> ->] H1 H2 H3. by destruct e.
Qed.

(** C7. With multi-part upload configured, [uploadFile] given a non-empty
    content encoding throws the configuration error and sends nothing: the
    requests sent and the counters are as before the call. *)
Theorem C7_multipart_refuses_content_encoding
    (cfg : Store.Config) (path mimeType contentEncoding : string)
    (env : Store.UploadEnv) (st : Store.StoreState) :
  Store.multipartUpload cfg = true ->
  contentEncoding <> "" ->
  Store.store_ok cfg st ->
  fst (Store.uploadFile cfg path mimeType contentEncoding env st)
  = Throw (Error "setting a content encoding is not supported with S3 multi-part uploads")
  /\ Store.network (snd (Store.uploadFile cfg path mimeType contentEncoding env st))
     = Store.network st
  /\ Store.stats (snd (Store.uploadFile cfg path mimeType contentEncoding env st))
     = Store.stats st.
Proof.
  intros Hmulti Henc Hok.
  destruct (StoreFacts.create_transfer_manager_spec cfg st Hok)
    as (_ & Htm & Hstats & Hnet).
  unfold Store.uploadFile.
  destruct (Store.transferManager (Store.create_transfer_manager cfg st)).
  - apply String.eqb_neq in Henc. rewrite Henc. done.
  - apply Htm in Hmulti. by destruct Hmulti.
Qed.

(** C9. A multi-part upload (no content encoding) whose handle has finished
    ends in one of three ways: status COMPLETED, the call returns and the
    upload is counted; status FAILED, it throws an error carrying the last
    error message of the handle; any other status, it throws the
    unexpected-state error. *)
Theorem C9_multipart_terminal_outcomes
    (cfg : Store.Config) (path mimeType : string)
    (env : Store.UploadEnv) (st : Store.StoreState) :
  Store.multipartUpload cfg = true ->
  Store.store_ok cfg st ->
  (Store.final_status env = COMPLETED ->
   fst (Store.uploadFile cfg path mimeType "" env st) = Ok tt
   /\ Store.put (Store.stats (snd (Store.uploadFile cfg path mimeType "" env st)))
      = Store.u64 (Store.put (Store.stats st) + 1))
  /\ (Store.final_status env = FAILED ->
      fst (Store.uploadFile cfg path mimeType "" env st)
      = Throw (Error ("AWS error: failed to upload 's3://"
                      +:+ Store.bucketName cfg +:+ "/" +:+ path +:+ "': "
                      +:+ Store.last_error env)))
  /\ (Store.final_status env <> COMPLETED ->
      Store.final_status env <> FAILED ->
      fst (Store.uploadFile cfg path mimeType "" env st)
      = Throw (Error ("AWS error: transfer status of 's3://"
                      +:+ Store.bucketName cfg +:+ "/" +:+ path
                      +:+ "' in unexpected state"))).
Proof.
  intros Hmulti Hok.
  destruct (StoreFacts.create_transfer_manager_spec cfg st Hok)
    as (_ & Htm & Hstats & Hnet).
  unfold Store.uploadFile.
  destruct (Store.transferManager (Store.create_transfer_manager cfg st)).
  2: { apply Htm in Hmulti. by destruct Hmulti. }
  simpl. split; [|split].
  - intros ->. simpl. by rewrite Hstats.
  - by intros ->.
  - intros H1 H2. by destruct (Store.final_status env).
Qed.

(** C10. When the metadata probe reports size 0, the first
    [start_downloads] opens no range request; in every state of the fetch no
    request has been made and the sink has received nothing; the first move
    of the calling thread is the return, with [data_size] 0; and no fetch
    returns otherwise. *)
Theorem C10_empty_object_returns_at_once
    (key : string) (head : Outcome Z) (range_body : N -> N -> bytes)
    (elapsed : N) :
  getObjectSize key head = Ok 0 ->
  requests (init 0) = []
  /\ (forall evs s, run 0 range_body evs (init 0) = Some s ->
        requests s = [] /\ sink s = [])
  /\ getObject key head range_body [Consume] elapsed
     = Some (Ok {| data := None; data_size := Some 0; durationMs := elapsed |},
             [])
  /\ (forall evs r snk,
        getObject key head range_body evs elapsed = Some (r, snk) ->
        evs = [Consume]
        /\ r = Ok {| data := None; data_size := Some 0; durationMs := elapsed |}
        /\ snk = []).
Proof.
  intros Hsize. split; [done|]. split; [|split].
  - intros evs s Hrun. by apply run_zero in Hrun as [[-> _]|[-> _]].
  - unfold getObject. by rewrite Hsize.
  - intros evs r snk. unfold getObject. rewrite Hsize.
    destruct (run 0 range_body evs (init 0)) as [s|] eqn:Hrun; [|done].
    apply run_zero in Hrun as [[-> ->]|[-> ->]]; simpl; [done|].
    by intros [= <- <-].
Qed.

(** C8. For an object of 70 MiB the three range requests opened are each for
    [chunk_size] = 32 MiB, the final one at offset 64 MiB included, where
    only 6 MiB remain: the length passed to the transport is [chunk_size],
    while [download_size], the remainder, only moves the cursor. *)
Theorem C8_final_request_asks_for_chunk_size :
  requests (init (70 * 1024 * 1024))
  = [(0, chunk_size); (chunk_size, chunk_size); (2 * chunk_size, chunk_size)]
  /\ 70 * 1024 * 1024 - 2 * chunk_size = 6 * 1024 * 1024
  /\ chunk_size <> 70 * 1024 * 1024 - 2 * chunk_size
  /\ next_chunk_offset (init (70 * 1024 * 1024)) = 70 * 1024 * 1024.
Proof. repeat split; vm_compute; congruence. Qed.

(** C5, the claim as stated fails: a key made of 40 characters and
    ".narinfo" (48 characters) is passed over. *)
Lemma C5_counterexample :
  ~ (forall key,
       Store.skipped key = false <->
       exists hash, String.length hash = 40%nat /\ key = hash +:+ ".narinfo").
Proof.
  intros Hclaim.
  destruct (Hclaim "0123456789abcdfghijklmnpqrsvwxyz01234567.narinfo")
    as [_ Hq].
  assert (Hs : Store.skipped "0123456789abcdfghijklmnpqrsvwxyz01234567.narinfo"
               = false).
  { apply Hq. exists "0123456789abcdfghijklmnpqrsvwxyz01234567". done. }
  vm_compute in Hs. discriminate.
Qed.

(** C4, the claim as stated fails: a call of [getFile] whose metadata probe
    fails throws the [S3Error] of the probe, not
    [NoSuchBinaryCacheFile]. *)
Lemma C4_counterexample :
  ~ (forall uri path head range_body evs elapsed stats r stats' snk,
       Fetch.getFile_call uri path head range_body evs elapsed stats
       = Some (r, stats', snk) ->
       exists message, r = Throw (NoSuchBinaryCacheFile message)).
Proof.
  intros Hclaim.
  destruct (Hclaim "s3://cache" "gone.nar" (Failure NO_SUCH_KEY "not there")
              tagged [] 0 Store.no_stats _ _ _ eq_refl) as [message Hm].
  discriminate.
Qed.

(** ** Instances of the properties *)

Lemma C1_witness :
  getObject "abc" (Success 3%Z) (s3_range abc) caller_after_completion 7
  <> Some (Ok (transfer_result 3 7), [abc])
  /\ getObject "abc" (Success 3%Z) (s3_range abc) caller_after_completion 7
     = None.
Proof.
  assert (Hsize : getObjectSize "abc" (Success 3%Z) = Ok 3) by reflexivity.
  assert (Hpos : 0 < 3) by reflexivity.
  split; [|vm_compute; reflexivity].
  apply (proj1 (proj2 (proj2 (C1_nothing_of_a_nonempty_object_reaches_the_sink
                                "abc" (Success 3%Z) (s3_range abc) 3 7
                                caller_after_completion Hsize Hpos)))).
Defined.

Lemma C2_witness :
  getObject "big" (Success (70 * 1024 * 1024)%Z) tagged
    ([] ++ Callback 1 FAILED :: Consume :: []) 9
  = None.
Proof.
  assert (Hsize : getObjectSize "big" (Success (70 * 1024 * 1024)%Z)
                  = Ok (70 * 1024 * 1024)) by reflexivity.
  assert (Hst : succeeding FAILED = false) by reflexivity.
  destruct (run (70 * 1024 * 1024) tagged ([] ++ [Callback 1 FAILED])
              (init (70 * 1024 * 1024))) as [s1|] eqn:Hrun.
  - assert (Hfront : chunks s1 !! 0%nat = Some 0%nat).
    { vm_compute in Hrun. injection Hrun as <-. reflexivity. }
    assert (Hpending : promises s1 !! 0%nat = Some Pending).
    { vm_compute in Hrun. injection Hrun as <-. reflexivity. }
    exact (proj2 (proj2 (proj2
             (C2_failure_of_a_later_chunk_is_not_raised "big" _ tagged _ 9
                [] [] 1 0 FAILED s1 Hsize Hst Hrun Hfront
                Hpending)))).
  - vm_compute in Hrun. discriminate.
Defined.

Lemma C3_witness :
  (in_flight (init (200 * 1024 * 1024)) <= 3)%nat
  /\ (buffered (init (200 * 1024 * 1024)) <= 5)%nat.
Proof.
  assert (Hfit : 200 * 1024 * 1024 < size_t_max) by reflexivity.
  apply (proj1 (C3_window_bounds (200 * 1024 * 1024) tagged Hfit)).
  exists []. reflexivity.
Defined.

Lemma C4_witness :
  exists stats',
    Fetch.getFile_call "s3://cache" "empty.nar" (Success 0%Z) tagged [Consume]
      7 Store.no_stats
    = Some (Throw (NoSuchBinaryCacheFile
                     ("file '" +:+ "empty.nar"
                      +:+ "' does not exist in binary cache '"
                      +:+ "s3://cache" +:+ "'")),
            stats', [])
    /\ Store.get stats' = Store.u64 (Store.get Store.no_stats + 1)
    /\ Store.getBytes stats' = Store.u64 (Store.getBytes Store.no_stats + 0).
Proof.
  apply (proj1 (C4_getFile_throws_when_getObject_returns "s3://cache"
                  "empty.nar" (Success 0%Z) tagged 7 Store.no_stats)).
  reflexivity.
Defined.

Lemma C5_witness :
  "/nix/store/0123456789abcdfghijklmnpqrsvwxyz-x"
  ∈ ({["/nix/store/0123456789abcdfghijklmnpqrsvwxyz-x"]} ∪ ∅ : gset string)
  <->
  "/nix/store/0123456789abcdfghijklmnpqrsvwxyz-x" ∈ (∅ : gset string) \/
  exists hash,
    (hash +:+ ".narinfo") ∈ listed_page /\ String.length hash = 32%nat
    /\ Ok ("/nix/store" +:+ "/" +:+ hash +:+ "-" +:+ "x")
       = Ok "/nix/store/0123456789abcdfghijklmnpqrsvwxyz-x".
Proof.
  assert (Hscan : Store.scan_page (StorePath := string) Ok "/nix/store" "x"
                    listed_page ∅
                  = Ok ({["/nix/store/0123456789abcdfghijklmnpqrsvwxyz-x"]} ∪ ∅))
    by reflexivity.
  destruct (C5_listing_keeps_narinfo_keys_of_length_40 Ok "/nix/store" "x"
              listed_page ∅ _ Hscan) as (_ & _ & _ & Hpaths).
  exact (Hpaths "/nix/store/0123456789abcdfghijklmnpqrsvwxyz-x").
Defined.

Lemma C6_witness :
  fst (Store.fileExists "k.narinfo" Store.no_stats
         (Failure INTERNAL_FAILURE "boom"))
  = Throw (Error "AWS error fetching 'k.narinfo': boom").
Proof.
  apply (proj2 (proj2 (C6_fileExists_soft_and_hard_failures "k.narinfo"
                         Store.no_stats (Failure INTERNAL_FAILURE "boom")))
           INTERNAL_FAILURE "boom");
    [reflexivity | discriminate | discriminate | discriminate].
Defined.

Lemma C7_witness :
  fst (Store.uploadFile multipart_config "a.narinfo" "text/x-nix-narinfo" "xz"
         failed_upload Store.new_store)
  = Throw (Error "setting a content encoding is not supported with S3 multi-part uploads")
  /\ Store.network
       (snd (Store.uploadFile multipart_config "a.narinfo" "text/x-nix-narinfo"
               "xz" failed_upload Store.new_store))
     = [].
Proof.
  destruct (C7_multipart_refuses_content_encoding multipart_config "a.narinfo"
              "text/x-nix-narinfo" "xz" failed_upload Store.new_store)
    as (Hthrow & Hnet & _).
  - reflexivity.
  - discriminate.
  - apply StoreFacts.new_store_ok.
  - exact (conj Hthrow Hnet).
Defined.

Lemma C9_witness :
  fst (Store.uploadFile multipart_config "a.nar" "application/x-nix-nar" ""
         failed_upload Store.new_store)
  = Throw (Error "AWS error: failed to upload 's3://cache/a.nar': timed out").
Proof.
  destruct (C9_multipart_terminal_outcomes multipart_config "a.nar"
              "application/x-nix-nar" failed_upload Store.new_store)
    as (_ & Hfailed & _).
  - reflexivity.
  - apply StoreFacts.new_store_ok.
  - apply Hfailed. reflexivity.
Defined.

Lemma C10_witness :
  getObject "empty" (Success 0%Z) tagged [Consume] 2
  = Some (Ok {| data := None; data_size := Some 0; durationMs := 2 |}, []).
Proof.
  assert (Hsize : getObjectSize "empty" (Success 0%Z) = Ok 0) by reflexivity.
  exact (proj1 (proj2 (proj2 (C10_empty_object_returns_at_once "empty"
                                (Success 0%Z) tagged 2 Hsize)))).
Defined.

(** ** Runs of the pipeline *)

(** The oldest of three chunks fails before the calling thread moves: the
    fetch raises at the calling thread's second move, the sink empty. *)
Example oldest_chunk_fails_first :
  getObject "big" (Success (70 * 1024 * 1024)%Z) tagged
    [Callback 0 FAILED; Consume; Consume] 9
  = Some (Throw (runtime_error "Error from AWS"), []).
Proof. vm_compute. reflexivity. Qed.

(** The second of three chunks fails and the calling thread then waits on
    the first: the call does not come back. *)
Example second_chunk_fails :
  getObject "big" (Success (70 * 1024 * 1024)%Z) tagged
    [Callback 1 FAILED; Consume] 9
  = None
  /\ run (70 * 1024 * 1024) tagged [Callback 1 FAILED; Consume; Consume]
       (init (70 * 1024 * 1024))
     = None.
Proof. split; vm_compute; reflexivity. Qed.

(** The calling thread enters [get()] before the oldest transfer has
    completed: the callback cannot take the mutex. *)
Example callback_blocked_by_waiting_consumer :
  run (70 * 1024 * 1024) tagged [Consume; Callback 0 COMPLETED]
    (init (70 * 1024 * 1024))
  = None.
Proof. vm_compute. reflexivity. Qed.

(** With five chunks queued and none taken off, nothing more is requested
    although only two transfers are in flight. *)
Example queue_bound_stops_submission :
  (fun s => (in_flight s, length (chunks s), length (requests s)))
  <$> run (400 * 1024 * 1024) tagged
        [Callback 0 FAILED; Callback 1 FAILED; Callback 2 FAILED]
        (init (400 * 1024 * 1024))
  = Some (2%nat, 5%nat, 5%nat).
Proof. vm_compute. reflexivity. Qed.

(** Two pages: the paths of both, the keys that are not 40-character
    ".narinfo" keys left out. *)
Example listing_two_pages :
  Store.queryAllValidPaths (StorePath := string) Ok "/nix/store" "x" "cache"
    two_pages 5
  = Some (Ok ({["/nix/store/zyxwvsrqpnmlkjihgfdcba9876543210-x"]}
              ∪ ({["/nix/store/0123456789abcdfghijklmnpqrsvwxyz-x"]} ∪ ∅))).
Proof. vm_compute. reflexivity. Qed.

Example listing_filter :
  Store.skipped narinfo_key = false
  /\ Store.skipped "nix-cache-info" = true
  /\ Store.skipped "0123456789abcdfghijklmnpqrsvwxyz01234567.narinfo" = true
  /\ Store.decode "/nix/store" "x" narinfo_key
     = "/nix/store/0123456789abcdfghijklmnpqrsvwxyz-x".
Proof. repeat split. Qed.

(** * Further properties of the chunked downloader *)

Module PipelineFacts.
Import Fetch.

(** ** Sums and counts over the queue *)

Lemma disjoint_filters_length {A} (p q : A -> bool) (l : list A) :
  (forall x, p x = true -> q x = false) ->
  (length (List.filter p l) + length (List.filter q l) <= length l)%nat.
Proof.
  intros Hpq. induction l as [|x l IH]; simpl; [lia|].
  destruct (p x) eqn:Hp.
  - rewrite (Hpq x Hp). simpl. lia.
  - destruct (q x); simpl; lia.
Qed.

Lemma pending_buffered_disjoint s h :
  is_pending s h = true -> is_buffered s h = false.
Proof.
  unfold is_pending, is_buffered.
  by destruct (promises s !! h) as [[| |]|].
Qed.

Section Pipeline.

Variable object_size : N.
Variable range_body : N -> N -> bytes.
Hypothesis object_size_fits : object_size < size_t_max.

Local Abbreviation Inv := (Downloader.Inv object_size range_body).
Local Abbreviation step := (Downloader.step object_size range_body).
Local Abbreviation run := (Downloader.run object_size range_body).
Local Abbreviation init := (Downloader.init object_size).
Local Abbreviation reachable := (Downloader.reachable object_size range_body).
Local Abbreviation start_downloads_loop :=
  (Downloader.start_downloads_loop object_size).
Local Abbreviation loop_cond := (Downloader.loop_cond object_size).

Lemma step_requests e s s' :
  step e s = Some s' -> exists more, requests s' = requests s ++ more.
Proof.
  assert (Hid : exists more, requests s = requests s ++ more)
    by (exists []; by rewrite app_nil_r).
  destruct e as [|h st]; simpl.
  - unfold Downloader.consume. destruct (pc s); try done.
    + destruct (chunks s); by intros [= <-].
    + destruct (chunks s) as [|h rest]; [done|].
      destruct (promises s !! h) as [[| |]|]; try done; by intros [= <-].
    + destruct (stream chunk); [|done]. by intros [= <-].
    + destruct (chunks s) as [|h rest]; [done|]. intros [= <-].
      exact (start_downloads_loop_requests object_size max_chunks
               {| next_chunk_offset := next_chunk_offset s;
                  transfers := transfers s; chunks := rest;
                  promises := promises s; requests := requests s;
                  sink := sink s; pc := AtLoop |}).
  - unfold Downloader.callback.
    destruct (pc s); try done;
      destruct (transfers s !! h); try done;
      destruct (requests s !! h) as [[? ?]|]; try done;
      destruct st; simpl; intros [= <-];
      first [ exact Hid
            | exact (start_downloads_loop_requests object_size max_chunks s)
            | exact (start_downloads_loop_requests object_size max_chunks
                       (settle h _ s)) ].
Qed.

Lemma step_of_reachable e s s' :
  reachable s -> step e s = Some s' -> reachable s'.
Proof.
  intros [evs Hrun] He. exists (evs ++ [e]).
  rewrite run_app, Hrun. simpl. by rewrite He.
Qed.

Lemma start_downloads_loop_all_pending fuel s :
  (forall h v, promises s !! h = Some v -> v = Pending) ->
  forall h v, promises (start_downloads_loop fuel s) !! h = Some v ->
    v = Pending.
Proof.
  revert s. induction fuel as [|fuel IH]; intros s Hall; simpl; [done|].
  destruct (loop_cond s); [|done].
  apply IH. intros h v. simpl.
  destruct (decide (length (requests s) = h)) as [<-|Hne].
  - rewrite lookup_insert_eq. by intros [= <-].
  - rewrite lookup_insert_ne by done. apply Hall.
Qed.

(** The map of transfers holds exactly the pending chunks of the queue. *)
Lemma in_flight_counts_pending s :
  Inv s -> in_flight s = length (List.filter (is_pending s) (chunks s)).
Proof.
  intros HI. unfold in_flight.
  assert (Hnd : NoDup (List.filter (is_pending s) (chunks s))).
  { apply NoDup_ListNoDup, List.NoDup_filter, NoDup_ListNoDup.
    rewrite (inv_chunks _ _ _ HI). apply NoDup_seq. }
  rewrite <- size_dom.
  replace (dom (transfers s))
    with (list_to_set (List.filter (is_pending s) (chunks s)) : gset nat).
  - by apply size_list_to_set.
  - apply set_eq. intros h.
    rewrite elem_of_list_to_set, elem_of_dom, (inv_transfers _ _ _ HI).
    rewrite list_elem_of_In, List.filter_In, <- list_elem_of_In.
    unfold is_pending. split.
    + intros [Hin Hp]. split; [done|].
      by destruct (promises s !! h) as [[| |]|].
    + intros [Hin Hp]. by rewrite Hp.
Qed.

End Pipeline.

End PipelineFacts.

(** * Further properties of the store *)

Module UploadFacts.
Import Store Upload.

(** The engine, when it exists, has the configured part size, and exists
    exactly when the once-flag is set and multi-part upload is configured. *)
Lemma engine_after_create cfg st :
  transferManager st
  = (if transferManagerCreated st && multipartUpload cfg
     then Some (bufferSize cfg) else None) ->
  transferManagerCreated (create_transfer_manager cfg st) = true
  /\ transferManager (create_transfer_manager cfg st)
     = (if multipartUpload cfg then Some (bufferSize cfg) else None)
  /\ stats (create_transfer_manager cfg st) = stats st
  /\ network (create_transfer_manager cfg st) = network st.
Proof.
  intros Hinv. unfold create_transfer_manager.
  destruct (transferManagerCreated st) eqn:Hflag; simpl in *.
  - by rewrite Hflag.
  - by destruct (multipartUpload cfg).
Qed.

Lemma u64_le x : u64 x <= x.
Proof. unfold u64. apply N.Div0.mod_le. Qed.

Lemma upload_once_engine cfg c st :
  transferManager st
  = (if transferManagerCreated st && multipartUpload cfg
     then Some (bufferSize cfg) else None) ->
  transferManagerCreated (upload_once cfg c st) = true
  /\ transferManager (upload_once cfg c st)
     = (if multipartUpload cfg then Some (bufferSize cfg) else None)
  /\ (length (network (upload_once cfg c st)) <= S (length (network st)))%nat
  /\ put (stats (upload_once cfg c st)) <= put (stats st) + 1.
Proof.
  intros Hinv.
  destruct (engine_after_create cfg st Hinv) as (Hflag & Htm & Hstats & Hnet).
  unfold upload_once, uploadFile.
  destruct (transferManager (create_transfer_manager cfg st)) eqn:Hengine.
  - destruct (String.eqb (up_contentEncoding c) "").
    + destruct (final_status (up_env c)); simpl;
        rewrite ?length_app, ?Hnet, ?Hstats; simpl;
        (split; [done|]); (split; [by rewrite <- Htm|]);
        (split; [lia|]); try lia.
      etrans; [apply u64_le|lia].
    + simpl. rewrite Hnet, Hstats. split; [done|]. split; [by rewrite <- Htm|].
      split; lia.
  - destruct (checkAws _ (put_outcome (up_env c))); simpl;
      rewrite ?length_app, ?Hnet, ?Hstats; simpl;
      (split; [done|]); (split; [by rewrite <- Htm|]);
      (split; [lia|]); try lia.
    etrans; [apply u64_le|lia].
Qed.

Lemma uploads_engine cfg calls st :
  transferManager st
  = (if transferManagerCreated st && multipartUpload cfg
     then Some (bufferSize cfg) else None) ->
  transferManager (uploads cfg calls st)
  = (if transferManagerCreated (uploads cfg calls st) && multipartUpload cfg
     then Some (bufferSize cfg) else None)
  /\ (calls <> [] -> transferManagerCreated (uploads cfg calls st) = true)
  /\ (length (network (uploads cfg calls st))
      <= length (network st) + length calls)%nat
  /\ put (stats (uploads cfg calls st))
     <= put (stats st) + N.of_nat (length calls).
Proof.
  revert st. induction calls as [|c calls IH]; intros st Hinv; simpl.
  - split; [done|]. split; [done|]. split; lia.
  - destruct (upload_once_engine cfg c st Hinv) as (Hflag & Htm & Hnet & Hput).
    destruct (IH (upload_once cfg c st)) as (Hinv' & Hcreated & Hnet' & Hput').
    { by rewrite Hflag, Htm. }
    split; [done|]. split; [|split; lia].
    intros _. destruct calls as [|c' calls]; [done|]. by apply Hcreated.
Qed.

End UploadFacts.

Module ListingFacts.
Import Store Listing.

Lemma append_inj_prefix (a x y : string) : a +:+ x = a +:+ y -> x = y.
Proof.
  induction a as [|c a IH]; simpl; [done|].
  rewrite !StoreFacts.append_cons. intros [= Heq]. by apply IH.
Qed.

Lemma append_inj_length (a b x y : string) :
  String.length a = String.length b -> a +:+ x = b +:+ y -> a = b /\ x = y.
Proof.
  revert b. induction a as [|c a IH]; intros [|d b]; simpl; try done.
  rewrite !StoreFacts.append_cons. intros [= Hlen] [= -> Heq].
  destruct (IH b Hlen Heq) as [-> ->]. done.
Qed.

Section Enumerator.

Context {StorePath : Type} `{Countable StorePath}.
Variable parseStorePath : string -> result StorePath.
Variable storeDir : string.
Variable MissingName : string.
Variable bucket : string.
Variable ListObjects : string -> Outcome (list string * string).

Local Abbreviation scan_page :=
  (Store.scan_page parseStorePath storeDir MissingName).
Local Abbreviation list_pages :=
  (Store.list_pages parseStorePath storeDir MissingName bucket ListObjects).

(** Scanning two runs of keys one after the other is scanning them joined. *)
Lemma scan_page_app (c1 c2 : list string) (paths : gset StorePath) :
  scan_page (c1 ++ c2) paths
  = match scan_page c1 paths with
    | Ok paths1 => scan_page c2 paths1
    | Throw e => Throw e
    end.
Proof.
  revert paths. induction c1 as [|key c1 IH]; intros paths; simpl; [done|].
  destruct (skipped key); [apply IH|].
  destruct (parseStorePath (decode storeDir MissingName key)); [apply IH|done].
Qed.

Lemma list_pages_scan (fuel : nat) (marker : string)
    (paths paths' : gset StorePath) :
  list_pages fuel marker paths = Some (Ok paths') ->
  scan_page (keys_of_pages ListObjects fuel marker) paths = Ok paths'.
Proof.
  revert marker paths. induction fuel as [|fuel IH]; intros marker paths;
    simpl; [done|].
  destruct (ListObjects marker) as [[contents next]|err message]; simpl;
    [|done].
  rewrite scan_page_app.
  destruct (scan_page contents paths) as [paths1|e]; [|done].
  destruct (String.eqb next ""); [by intros [= <-]|apply IH].
Qed.

Lemma scan_page_total (contents : list string) (paths : gset StorePath) :
  (forall s, exists p, parseStorePath s = Ok p) ->
  exists paths', scan_page contents paths = Ok paths'.
Proof.
  intros Hparse. revert paths.
  induction contents as [|key rest IH]; intros paths; simpl; [by eexists|].
  destruct (skipped key); [apply IH|].
  destruct (Hparse (decode storeDir MissingName key)) as [p ->]. apply IH.
Qed.

End Enumerator.

End ListingFacts.


(** * Further properties of the code *)

Import PipelineFacts Fetch.

(** X1. [getFile] never returns normally: whenever its call of the chunked
    [getObject] comes back, [getFile] throws, either the [S3Error] of the
    failed metadata probe, or the [runtime_error] of a failed chunk, or
    [NoSuchBinaryCacheFile] after a fetch that returned; the call is
    counted, and no byte is ever added to the count of bytes fetched. *)
Theorem getFile_never_returns_normally
    (uri path : string) (head : Outcome Z) (range_body : N -> N -> bytes)
    (evs : list event) (elapsed : N) (stats stats' : Store.Stats)
    (r : result unit) (snk : list bytes) :
  getFile_call uri path head range_body evs elapsed stats
  = Some (r, stats', snk) ->
  (exists e, r = Throw e
     /\ (e = NoSuchBinaryCacheFile
              ("file '" +:+ path +:+ "' does not exist in binary cache '"
               +:+ uri +:+ "'")
         \/ e = runtime_error "Error from AWS"
         \/ exists err message,
              head = Failure err message
              /\ e = S3Error err
                       (("AWS error checking object size '" +:+ path +:+ "'")
                        +:+ ": " +:+ message)))
  /\ Store.get stats' = Store.u64 (Store.get stats + 1)
  /\ Store.u64 (Store.getBytes stats') = Store.u64 (Store.getBytes stats).
Proof.
  unfold getFile_call.
  destruct (Downloader.getObject path head range_body evs elapsed) as [[call snk0]|]
    eqn:Hget; [|done].
  intros [= <- <- <-]. destruct call as [res|e].
  - apply getObject_returned in Hget as (n & s & _ & _ & _ & _ & ->).
    simpl. split; [eauto|]. split; [done|].
    unfold Store.u64. by rewrite N.add_0_r, N.Div0.mod_mod.
  - simpl. split; [|done]. exists e. split; [done|]. right.
    unfold Downloader.getObject in Hget.
    destruct (getObjectSize path head) as [n|e0] eqn:Hsize.
    + pose proof (getObjectSize_fits _ _ _ Hsize) as Hfit.
      destruct (run n range_body evs (init n)) as [s|] eqn:Hrun; [|done].
      assert (HI : Inv n range_body s).
      { eapply run_Inv; [done| |done]. by apply init_Inv. }
      pose proof (inv_pc _ _ _ HI) as Hp.
      destruct (pc s) eqn:Hpc; try done. injection Hget as <- _.
      destruct Hp as (h & rest & _ & Hp). left. by eapply inv_exn.
    + injection Hget as <- _. right.
      unfold getObjectSize in Hsize.
      destruct head as [len|err message]; simpl in Hsize; [done|].
      injection Hsize as <-. by exists err, message.
Qed.

(** X2. In a fetch the cursor never moves back and never passes the object
    size, and a range request once made is never withdrawn. *)
Theorem cursor_stays_within_object
    (object_size : N) (range_body : N -> N -> bytes) (e : event)
    (s s' : state) :
  object_size < size_t_max ->
  reachable object_size range_body s ->
  step object_size range_body e s = Some s' ->
  next_chunk_offset s <= next_chunk_offset s'
  /\ next_chunk_offset s' <= object_size
  /\ exists more, requests s' = requests s ++ more.
Proof.
  intros Hfit Hs He.
  pose proof (step_of_reachable _ _ _ _ _ Hs He) as Hs'.
  apply reachable_Inv in Hs; [|done]. apply reachable_Inv in Hs'; [|done].
  destruct (step_requests _ _ _ _ _ He) as [more Hmore].
  rewrite (inv_cursor _ _ _ Hs), (inv_cursor _ _ _ Hs'), Hmore, length_app.
  split; [|split; [lia|by exists more]].
  unfold chunk_size. lia.
Qed.

(** X5. The transfers in flight are exactly the chunks of the queue whose
    promise is pending, so transfers in flight and completed chunks
    together never number more than 5. *)
Theorem in_flight_and_buffered_share_the_queue
    (object_size : N) (range_body : N -> N -> bytes) (s : state) :
  object_size < size_t_max ->
  reachable object_size range_body s ->
  in_flight s = length (List.filter (is_pending s) (chunks s))
  /\ (in_flight s + buffered s <= 5)%nat.
Proof.
  intros Hfit Hs. apply reachable_Inv in Hs; [|done].
  pose proof (in_flight_counts_pending _ _ s Hs) as Hfl.
  split; [done|]. rewrite Hfl. unfold buffered.
  etrans; [apply disjoint_filters_length, pending_buffered_disjoint|].
  apply (inv_queue _ _ _ Hs).
Qed.

(** X7. For every object that is not empty, the calling thread's first move
    takes the mutex and waits on the oldest chunk while that chunk's
    transfer is still in flight; from there no callback can run and the
    wait cannot end: the fetch neither returns nor raises. *)
Theorem fetch_blocks_when_caller_waits_first
    (object_size : N) (range_body : N -> N -> bytes) :
  0 < object_size -> object_size < size_t_max ->
  exists s,
    run object_size range_body [Consume] (init object_size) = Some s
    /\ pc s = InGet
    /\ (forall e, step object_size range_body e s = None)
    /\ (forall evs s', run object_size range_body evs s = Some s' -> s' = s).
Proof.
  intros Hpos Hfit.
  pose proof (init_Inv object_size range_body Hfit) as HI.
  pose proof (start_downloads_exits object_size Hfit empty_state) as Hc.
  fold (init object_size) in Hc.
  assert (Hpc : pc (init object_size) = AtLoop).
  { unfold init, start_downloads. by rewrite start_downloads_loop_pc. }
  assert (Hsink : sink (init object_size) = []).
  { unfold init, start_downloads. by rewrite start_downloads_loop_sink. }
  pose proof (inv_chunks _ _ _ HI) as Hch.
  unfold popped in Hch. rewrite Hpc, Hsink in Hch. simpl in Hch.
  rewrite Nat.sub_0_r in Hch.
  destruct (length (requests (init object_size))) as [|n] eqn:Hn.
  { exfalso. simpl in Hch.
    assert (Htr : transfers (init object_size) = ∅).
    { apply map_empty. intros h. apply eq_None_not_Some. intros Hs.
      apply (inv_transfers _ _ _ HI) in Hs as [Hin _]. rewrite Hch in Hin.
      by apply elem_of_nil in Hin. }
    assert (Ht : loop_cond object_size (init object_size) = true);
      [|congruence].
    apply loop_cond_true; [done|].
    rewrite (inv_cursor _ _ _ HI), Hn, Htr, Hch, map_size_empty. simpl.
    unfold max_transfers, max_chunks. lia. }
  simpl in Hch.
  assert (Hp : promises (init object_size) !! 0%nat = Some Pending).
  { destruct (inv_known _ _ _ HI 0%nat) as [v Hv]; [rewrite Hch; left|].
    rewrite Hv. f_equal.
    eapply (start_downloads_loop_all_pending object_size); [|exact Hv].
    intros h v'. simpl. by rewrite lookup_empty. }
  exists (with_pc InGet (init object_size)).
  assert (Hstuck : forall e,
            step object_size range_body e (with_pc InGet (init object_size))
            = None).
  { intros e. by eapply wait_blocks_every_move. }
  split; [|split; [done|split; [done|]]].
  - simpl. unfold consume. by rewrite Hpc, Hch.
  - intros [|e evs] s'; simpl; [by intros [= <-]|]. by rewrite Hstuck.
Qed.

(** X8. The whole-object [getObject]: a body that decompresses comes back as
    [data]; a GET failing as NO_SUCH_KEY or ACCESS_DENIED comes back as a
    result without [data] and nothing is thrown; any other failure of the
    GET is thrown as [S3Error] with its type and message, and a failure of
    the decompressor is thrown as it is; [data_size] is never set. *)
Theorem whole_getObject_soft_and_hard_errors
    (decompress : string -> bytes -> result bytes) (key : string)
    (outcome : Outcome (bytes * string)) (elapsed : N) :
  (forall body encoding d,
     outcome = Success (body, encoding) -> decompress encoding body = Ok d ->
     Fetch.getObject decompress key outcome elapsed
     = Ok {| data := Some d; data_size := None; durationMs := elapsed |})
  /\ (forall body encoding message,
        outcome = Success (body, encoding) ->
        decompress encoding body = Throw (Error message) ->
        Fetch.getObject decompress key outcome elapsed = Throw (Error message))
  /\ (forall err message,
        outcome = Failure err message ->
        err = NO_SUCH_KEY \/ err = ACCESS_DENIED ->
        Fetch.getObject decompress key outcome elapsed
        = Ok {| data := None; data_size := None; durationMs := elapsed |})
  /\ (forall err message,
        outcome = Failure err message ->
        err <> NO_SUCH_KEY -> err <> ACCESS_DENIED ->
        Fetch.getObject decompress key outcome elapsed
        = Throw (S3Error err (("AWS error fetching '" +:+ key +:+ "'")
                              +:+ ": " +:+ message)))
  /\ (forall res,
        Fetch.getObject decompress key outcome elapsed = Ok res ->
        data_size res = None /\ durationMs res = elapsed).
Proof.
  unfold Fetch.getObject. split; [|split; [|split; [|split]]].
  - intros body encoding d -> Hd. simpl. by rewrite Hd.
  - intros body encoding message -> Hd. simpl. by rewrite Hd.
  - intros err message -> [->| ->]; done.
  - intros err message -> H1 H2. simpl. by destruct err.
  - intros res. destruct outcome as [[body encoding]|err message]; simpl.
    + destruct (decompress encoding body) as [d|[[]| | |]]; simpl; try done;
        by intros [= <-].
    + destruct err; simpl; try done; by intros [= <-].
Qed.

(** X9. On one and the same failure the existence probe and the whole-object
    fetch agree, but for RESOURCE_NOT_FOUND: whenever the fetch reports the
    object absent the probe answers false, and whenever the probe throws the
    fetch throws; on RESOURCE_NOT_FOUND the probe answers false while the
    fetch throws; on every other failure for which the probe answers false
    the fetch reports the object absent. *)
Theorem probe_and_fetch_on_the_same_failure
    (decompress : string -> bytes -> result bytes) (path : string)
    (stats : Store.Stats) (err : S3Errors) (message : string) (elapsed : N) :
  ((exists res,
      Fetch.getObject decompress path (Failure err message) elapsed = Ok res)
   -> fst (Store.fileExists path stats (Failure err message)) = Ok false)
  /\ ((exists e, fst (Store.fileExists path stats (Failure err message))
                 = Throw e)
      -> exists e,
           Fetch.getObject decompress path (Failure err message) elapsed
           = Throw e)
  /\ (err = RESOURCE_NOT_FOUND ->
      fst (Store.fileExists path stats (Failure err message)) = Ok false
      /\ exists e,
           Fetch.getObject decompress path (Failure err message) elapsed
           = Throw e)
  /\ (fst (Store.fileExists path stats (Failure err message)) = Ok false ->
      err <> RESOURCE_NOT_FOUND ->
      Fetch.getObject decompress path (Failure err message) elapsed
      = Ok {| data := None; data_size := None; durationMs := elapsed |}).
Proof.
  unfold Fetch.getObject. simpl. split; [|split; [|split]].
  - intros [res Hres]. by destruct err.
  - intros [e He]. destruct err; try done; by eexists.
  - intros ->. split; [done|]. by eexists.
  - intros Hprobe Hne. by destruct err.
Qed.

(** X10. [uploadFile] counts an upload only when it succeeded: a call that
    throws leaves every counter as it was; a call that returns adds one to
    [put], the elapsed time to [putTimeMs] and the size of the stream to
    [putBytes], a negative size counting as 0; the other counters are left
    alone. *)
Theorem uploadFile_counts_only_successes
    (cfg : Store.Config) (path mimeType contentEncoding : string)
    (env : Store.UploadEnv) (st : Store.StoreState) :
  ((exists e,
      fst (Store.uploadFile cfg path mimeType contentEncoding env st) = Throw e)
   -> Store.stats (snd (Store.uploadFile cfg path mimeType contentEncoding env st))
      = Store.stats st)
  /\ (fst (Store.uploadFile cfg path mimeType contentEncoding env st) = Ok tt ->
      Store.stats (snd (Store.uploadFile cfg path mimeType contentEncoding env st))
      = {| Store.put := Store.u64 (Store.put (Store.stats st) + 1);
           Store.putBytes :=
             Store.u64 (Store.putBytes (Store.stats st)
                        + Z.to_N (Z.max (Store.stream_size env) 0));
           Store.putTimeMs :=
             Store.u64 (Store.putTimeMs (Store.stats st) + Store.elapsed_ms env);
           Store.get := Store.get (Store.stats st);
           Store.getBytes := Store.getBytes (Store.stats st);
           Store.getTimeMs := Store.getTimeMs (Store.stats st);
           Store.head := Store.head (Store.stats st) |})
  /\ ((Store.stream_size env <= 0)%Z ->
      Store.u64 (Store.putBytes
                   (Store.stats
                      (snd (Store.uploadFile cfg path mimeType contentEncoding
                              env st))))
      = Store.u64 (Store.putBytes (Store.stats st))).
Proof.
  assert (Hstats : Store.stats (Store.create_transfer_manager cfg st)
                   = Store.stats st).
  { unfold Store.create_transfer_manager.
    by destruct (Store.transferManagerCreated st). }
  assert (Hzero : (Store.stream_size env <= 0)%Z ->
            Store.u64 (Store.u64 (Store.putBytes (Store.stats st)
                         + Z.to_N (Z.max (Store.stream_size env) 0)))
            = Store.u64 (Store.putBytes (Store.stats st))).
  { intros Hneg. replace (Z.to_N (Z.max (Store.stream_size env) 0)) with 0
      by lia.
    unfold Store.u64. by rewrite N.add_0_r, N.Div0.mod_mod. }
  unfold Store.uploadFile.
  destruct (Store.transferManager (Store.create_transfer_manager cfg st)).
  - destruct (String.eqb contentEncoding "").
    + destruct (Store.final_status env); simpl; rewrite ?Hstats;
        (split; [by intros [? ?]|]); (split; [done|]); try done.
    + simpl. rewrite Hstats. split; [done|]. split; [done|done].
  - destruct (checkAws _ (Store.put_outcome env)); simpl; rewrite ?Hstats;
      (split; [by intros [? ?]|]); (split; [done|]); try done.
Qed.

(** X11. [uploadFile] sends at most one request, whatever its outcome: with
    multi-part upload one [UploadFile], and none when a content encoding was
    asked for; without it one [PutObject], which carries a content encoding
    exactly when the one asked for is not empty. *)
Theorem uploadFile_sends_one_request
    (cfg : Store.Config) (path mimeType contentEncoding : string)
    (env : Store.UploadEnv) (st : Store.StoreState) :
  Store.store_ok cfg st ->
  Store.network (snd (Store.uploadFile cfg path mimeType contentEncoding env st))
  = Store.network st
    ++ (if Store.multipartUpload cfg
        then (if String.eqb contentEncoding ""
              then [Store.NetUploadFile (Store.bucketName cfg) path mimeType]
              else [])
        else [Store.NetPutObject (Store.bucketName cfg) path mimeType
                (if String.eqb contentEncoding "" then None
                 else Some contentEncoding)]).
Proof.
  intros Hok.
  destruct (StoreFacts.create_transfer_manager_spec cfg st Hok)
    as (_ & Htm & _ & Hnet).
  unfold Store.uploadFile.
  destruct (Store.transferManager (Store.create_transfer_manager cfg st))
    eqn:Hengine.
  - rewrite (proj1 Htm) by eauto.
    destruct (String.eqb contentEncoding "").
    + destruct (Store.final_status env); simpl; by rewrite Hnet.
    + simpl. by rewrite Hnet, app_nil_r.
  - destruct (Store.multipartUpload cfg) eqn:Hm.
    + destruct (proj2 Htm eq_refl) as [? ?]. done.
    + destruct (checkAws _ (Store.put_outcome env)); simpl; by rewrite Hnet.
Qed.

(** X12. Over any sequence of uploads on a new store the transfer engine is
    built at most once and with the configured part size: after the first
    call the once-flag is set, and the engine exists, with that part size,
    exactly when multi-part upload is configured; no more requests have been
    sent, and no more uploads counted, than calls were made. *)
Theorem engine_is_built_once (cfg : Store.Config)
    (calls : list Upload.UploadCall) :
  Store.store_ok cfg (Upload.uploads cfg calls Store.new_store)
  /\ (calls <> [] ->
      Store.transferManagerCreated (Upload.uploads cfg calls Store.new_store)
      = true
      /\ Store.transferManager (Upload.uploads cfg calls Store.new_store)
         = (if Store.multipartUpload cfg then Some (Store.bufferSize cfg)
            else None))
  /\ (length (Store.network (Upload.uploads cfg calls Store.new_store))
      <= length calls)%nat
  /\ Store.put (Store.stats (Upload.uploads cfg calls Store.new_store))
     <= N.of_nat (length calls).
Proof.
  destruct (UploadFacts.uploads_engine cfg calls Store.new_store)
    as (Hinv & Hcreated & Hnet & Hput); [done|].
  split; [|split; [|split; [done|done]]].
  - unfold Store.store_ok. rewrite Hinv.
    destruct (Store.transferManagerCreated _), (Store.multipartUpload cfg);
      simpl; split; try done; try (by intros [? ?]); try (by intros [? ?]);
      by eauto.
  - intros Hne. specialize (Hcreated Hne). split; [done|].
    by rewrite Hinv, Hcreated.
Qed.

(** X13. With multi-part upload configured, [upsertFile] of a path whose
    category has a compression method set never sends anything: it throws
    (the configuration error, unless the compressor itself threw), and the
    requests sent and the counters are as before. *)
Theorem upsertFile_compression_conflicts_with_multipart
    (compress : string -> bytes -> result bytes)
    (cfg : Store.Config) (ccfg : Upload.Compression)
    (path mimeType : string) (payload : bytes)
    (env : Store.UploadEnv) (st : Store.StoreState) :
  Store.multipartUpload cfg = true ->
  Store.store_ok cfg st ->
  (Upload.narinfoCompression ccfg <> ""
   /\ Store.hasSuffix path ".narinfo" = true)
  \/ (Upload.lsCompression ccfg <> "" /\ Store.hasSuffix path ".ls" = true)
  \/ (Upload.logCompression ccfg <> "" /\ Upload.hasPrefix path "log/" = true) ->
  (exists e,
     fst (Upload.upsertFile compress cfg ccfg path mimeType payload env st)
     = Throw e
     /\ ((forall method, compress method payload <> Throw e) ->
         e = Error "setting a content encoding is not supported with S3 multi-part uploads"))
  /\ Store.network
       (snd (Upload.upsertFile compress cfg ccfg path mimeType payload env st))
     = Store.network st
  /\ Store.stats
       (snd (Upload.upsertFile compress cfg ccfg path mimeType payload env st))
     = Store.stats st.
Proof.
  intros Hmulti Hok Hcat.
  assert (Hcompressed : forall method, method <> "" ->
    (exists e,
       fst (Upload.upload_compressed compress cfg method path mimeType payload
              env st) = Throw e
       /\ ((forall m, compress m payload <> Throw e) ->
           e = Error "setting a content encoding is not supported with S3 multi-part uploads"))
    /\ Store.network
         (snd (Upload.upload_compressed compress cfg method path mimeType
                 payload env st)) = Store.network st
    /\ Store.stats
         (snd (Upload.upload_compressed compress cfg method path mimeType
                 payload env st)) = Store.stats st).
  { intros method Hne. unfold Upload.upload_compressed.
    destruct (compress method payload) as [body|e] eqn:Hc.
    - destruct (StoreFacts.create_transfer_manager_spec cfg st Hok)
        as (_ & Htm & Hstats & Hnet).
      unfold Store.uploadFile.
      destruct (Store.transferManager (Store.create_transfer_manager cfg st)).
      + apply String.eqb_neq in Hne. rewrite Hne. simpl.
        split; [eauto|done].
      + apply Htm in Hmulti. by destruct Hmulti.
    - simpl. split; [|done]. exists e. split; [done|].
      intros Hnever. by destruct (Hnever method). }
  unfold Upload.upsertFile.
  destruct (negb (String.eqb (Upload.narinfoCompression ccfg) "")
            && Store.hasSuffix path ".narinfo") eqn:H1.
  { apply Hcompressed. apply andb_true_iff in H1 as [H1 _].
    apply negb_true_iff in H1. by apply String.eqb_neq. }
  destruct (negb (String.eqb (Upload.lsCompression ccfg) "")
            && Store.hasSuffix path ".ls") eqn:H2.
  { apply Hcompressed. apply andb_true_iff in H2 as [H2 _].
    apply negb_true_iff in H2. by apply String.eqb_neq. }
  destruct (negb (String.eqb (Upload.logCompression ccfg) "")
            && Upload.hasPrefix path "log/") eqn:H3.
  { apply Hcompressed. apply andb_true_iff in H3 as [H3 _].
    apply negb_true_iff in H3. by apply String.eqb_neq. }
  exfalso.
  destruct Hcat as [[Hm Hs]|[[Hm Hs]|[Hm Hs]]];
    apply String.eqb_neq in Hm;
    [ rewrite Hm, Hs in H1 | rewrite Hm, Hs in H2 | rewrite Hm, Hs in H3 ];
    done.
Qed.

(** X14. A listing that ends has scanned the keys of all the pages it read,
    in the order read, as one run of keys: its paths are exactly the parsed
    decodings of the 40-character ".narinfo" keys among them. *)
Theorem listing_is_the_scan_of_all_pages
    {StorePath : Type} `{Countable StorePath}
    (parseStorePath : string -> result StorePath)
    (storeDir MissingName bucket : string)
    (ListObjects : string -> Outcome (list string * string))
    (fuel : nat) (paths' : gset StorePath) :
  Store.queryAllValidPaths parseStorePath storeDir MissingName bucket
    ListObjects fuel = Some (Ok paths') ->
  Store.scan_page parseStorePath storeDir MissingName
    (Listing.keys_of_pages ListObjects fuel "") ∅ = Ok paths'
  /\ forall p, p ∈ paths' <->
       exists hash,
         (hash +:+ ".narinfo") ∈ Listing.keys_of_pages ListObjects fuel ""
         /\ String.length hash = 32%nat
         /\ parseStorePath (storeDir +:+ "/" +:+ hash +:+ "-" +:+ MissingName)
            = Ok p.
Proof.
  intros Hlist. apply ListingFacts.list_pages_scan in Hlist.
  split; [done|]. intros p.
  rewrite (StoreFacts.scan_page_paths _ _ _ _ _ _ Hlist). split.
  - intros [Hp|(key & Hin & Hk & Hparse)]; [by apply elem_of_empty in Hp|].
    apply StoreFacts.qualifies_iff in Hk as (hash & Hlen & ->).
    exists hash. by rewrite <- (StoreFacts.decode_qualified storeDir MissingName).
  - intros (hash & Hin & Hlen & Hparse). right.
    exists (hash +:+ ".narinfo"). split; [done|]. split.
    + apply StoreFacts.qualifies_iff. by exists hash.
    + by rewrite StoreFacts.decode_qualified.
Qed.

(** X15. The paths of a page depend only on which keys it holds: two pages
    with the same keys, in any order and any number of times, scanned from
    the same paths, give the same paths. *)
Theorem scan_page_depends_on_the_keys_only
    {StorePath : Type} `{Countable StorePath}
    (parseStorePath : string -> result StorePath)
    (storeDir MissingName : string)
    (page1 page2 : list string) (paths paths1 paths2 : gset StorePath) :
  (forall key, key ∈ page1 <-> key ∈ page2) ->
  Store.scan_page parseStorePath storeDir MissingName page1 paths = Ok paths1 ->
  Store.scan_page parseStorePath storeDir MissingName page2 paths = Ok paths2 ->
  paths1 = paths2.
Proof.
  intros Hsame H1 H2. apply set_eq. intros p.
  rewrite (StoreFacts.scan_page_paths _ _ _ _ _ _ H1).
  rewrite (StoreFacts.scan_page_paths _ _ _ _ _ _ H2).
  split; (intros [Hp|(key & Hin & Hrest)]; [by left|]);
    right; exists key; (split; [by apply Hsame|done]).
Qed.

(** X16. The listing has no bound of its own on the pages it reads: when
    every page names a further page (and the parser rejects no key), no
    number of pages brings it to an end. *)
Theorem listing_needs_an_empty_marker
    {StorePath : Type} `{Countable StorePath}
    (parseStorePath : string -> result StorePath)
    (storeDir MissingName bucket : string)
    (ListObjects : string -> Outcome (list string * string)) :
  (forall s, exists p, parseStorePath s = Ok p) ->
  (forall marker, exists contents next,
     ListObjects marker = Success (contents, next) /\ next <> "") ->
  forall fuel,
    Store.queryAllValidPaths parseStorePath storeDir MissingName bucket
      ListObjects fuel = None.
Proof.
  intros Hparse Hmore fuel. unfold Store.queryAllValidPaths.
  generalize (∅ : gset StorePath). generalize "".
  induction fuel as [|fuel IH]; intros marker paths; simpl; [done|].
  destruct (Hmore marker) as (contents & next & -> & Hnext). simpl.
  destruct (ListingFacts.scan_page_total parseStorePath storeDir MissingName
              contents paths Hparse) as [paths1 ->].
  apply String.eqb_neq in Hnext. rewrite Hnext. apply IH.
Qed.

(** X17. Keys that pass the filter are decoded to different strings when
    they differ: no two metadata keys of a listing are taken for the same
    store path string. *)
Theorem decode_is_injective_on_listed_keys
    (storeDir MissingName key1 key2 : string) :
  Store.skipped key1 = false -> Store.skipped key2 = false ->
  Store.decode storeDir MissingName key1
  = Store.decode storeDir MissingName key2 ->
  key1 = key2.
Proof.
  intros H1 H2.
  apply StoreFacts.qualifies_iff in H1 as (hash1 & Hlen1 & ->).
  apply StoreFacts.qualifies_iff in H2 as (hash2 & Hlen2 & ->).
  rewrite !StoreFacts.decode_qualified by done. intros Heq.
  apply ListingFacts.append_inj_prefix in Heq.
  apply (ListingFacts.append_inj_prefix "/") in Heq.
  apply ListingFacts.append_inj_length in Heq as [-> _]; [done|congruence].
Qed.

(** X18. Without multi-part upload, [upsertFile] of a path whose category
    has a compression method set sends one [PutObject] whose content
    encoding is that method, the method of the first category that matches
    (metadata before listings before logs); when the PUT succeeds the bytes
    counted are those of the compressed body, not of the payload. *)
Theorem upsertFile_sends_the_compressed_body
    (compress : string -> bytes -> result bytes)
    (cfg : Store.Config) (ccfg : Upload.Compression)
    (path mimeType : string) (payload body : bytes)
    (env : Store.UploadEnv) (st : Store.StoreState) :
  Store.multipartUpload cfg = false ->
  Store.store_ok cfg st ->
  Upload.method_for ccfg path <> "" ->
  compress (Upload.method_for ccfg path) payload = Ok body ->
  Store.network
    (snd (Upload.upsertFile compress cfg ccfg path mimeType payload env st))
  = Store.network st
    ++ [Store.NetPutObject (Store.bucketName cfg) path mimeType
          (Some (Upload.method_for ccfg path))]
  /\ (forall r, Store.put_outcome env = Success r ->
      fst (Upload.upsertFile compress cfg ccfg path mimeType payload env st)
      = Ok tt
      /\ Store.putBytes
           (Store.stats
              (snd (Upload.upsertFile compress cfg ccfg path mimeType payload
                      env st)))
         = Store.u64 (Store.putBytes (Store.stats st)
                      + N.of_nat (length body))).
Proof.
  intros Hsingle Hok Hmethod Hbody.
  assert (Hup : Upload.upsertFile compress cfg ccfg path mimeType payload env st
                = Store.uploadFile cfg path mimeType
                    (Upload.method_for ccfg path)
                    (Upload.over_body body env) st).
  { unfold Upload.upsertFile, Upload.method_for in *.
    destruct (negb (String.eqb (Upload.narinfoCompression ccfg) "")
              && Store.hasSuffix path ".narinfo");
      [unfold Upload.upload_compressed; by rewrite Hbody|].
    destruct (negb (String.eqb (Upload.lsCompression ccfg) "")
              && Store.hasSuffix path ".ls");
      [unfold Upload.upload_compressed; by rewrite Hbody|].
    destruct (negb (String.eqb (Upload.logCompression ccfg) "")
              && Upload.hasPrefix path "log/");
      [unfold Upload.upload_compressed; by rewrite Hbody|].
    done. }
  rewrite Hup.
  destruct (StoreFacts.create_transfer_manager_spec cfg st Hok)
    as (_ & Htm & Hstats & Hnet).
  apply String.eqb_neq in Hmethod.
  unfold Store.uploadFile.
  destruct (Store.transferManager (Store.create_transfer_manager cfg st))
    eqn:Hengine.
  { assert (Store.multipartUpload cfg = true) by (apply Htm; eauto).
    congruence. }
  rewrite Hmethod. simpl. split.
  - destruct (Store.put_outcome env); simpl; by rewrite Hnet.
  - intros r ->. simpl. split; [done|]. rewrite Hstats. do 2 f_equal. lia.
Qed.

(** X19. A fetch starts with as many transfers as the object has windows of
    [chunk_size], three at most: after the first [start_downloads] that many
    range requests are open, all of them in flight. *)
Theorem fetch_opens_the_first_window
    (object_size : N) (range_body : N -> N -> bytes) :
  object_size < size_t_max ->
  N.of_nat (length (requests (init object_size)))
  = N.min 3 ((object_size + chunk_size - 1) / chunk_size)
  /\ in_flight (init object_size) = length (requests (init object_size))
  /\ chunks (init object_size) = seq 0 (length (requests (init object_size))).
Proof.
  intros Hfit.
  pose proof (init_Inv object_size range_body Hfit) as HI.
  pose proof (start_downloads_exits object_size Hfit empty_state) as Hc.
  fold (init object_size) in Hc.
  assert (Hpc : pc (init object_size) = AtLoop).
  { unfold init, start_downloads. by rewrite start_downloads_loop_pc. }
  assert (Hsink : sink (init object_size) = []).
  { unfold init, start_downloads. by rewrite start_downloads_loop_sink. }
  pose proof (inv_chunks _ _ _ HI) as Hch.
  unfold popped in Hch. rewrite Hpc, Hsink in Hch. simpl in Hch.
  rewrite Nat.sub_0_r in Hch.
  assert (Hall : forall h, h ∈ chunks (init object_size) ->
            is_pending (init object_size) h = true).
  { intros h Hin. unfold is_pending.
    destruct (inv_known _ _ _ HI h Hin) as [v Hv]. rewrite Hv.
    replace v with Pending; [done|]. symmetry.
    eapply (start_downloads_loop_all_pending object_size); [|exact Hv].
    intros h' v'. simpl. by rewrite lookup_empty. }
  assert (Hfl : in_flight (init object_size)
                = length (requests (init object_size))).
  { rewrite (in_flight_counts_pending _ _ _ HI).
    rewrite List.forallb_filter_id.
    - rewrite Hch at 1. by rewrite length_seq.
    - apply List.forallb_forall. intros h Hin. apply Hall.
      by apply list_elem_of_In. }
  split; [|done].
  pose proof (inv_in_flight _ _ _ HI) as Hmax. fold (in_flight (init object_size)) in Hmax.
  pose proof (inv_offsets _ _ _ HI) as Hoff.
  pose proof (inv_cursor _ _ _ HI) as Hcur.
  assert (Hcond : ~ (next_chunk_offset (init object_size) < object_size
                     /\ (size (transfers (init object_size)) < max_transfers)%nat
                     /\ (length (chunks (init object_size)) < max_chunks)%nat)).
  { intros Ht. apply loop_cond_true in Ht; [congruence|done]. }
  fold (in_flight (init object_size)) in Hcond.
  rewrite Hfl in Hcond, Hmax. rewrite Hch, length_seq in Hcond.
  unfold max_transfers, max_chunks in *.
  set (n := length (requests (init object_size))) in *.
  assert (Hceil : N.of_nat n <= (object_size + chunk_size - 1) / chunk_size).
  { destruct n as [|m]; [apply N.le_0_l|]. specialize (Hoff m ltac:(lia)).
    apply N.div_le_lower_bound; [done|]. unfold chunk_size in *. lia. }
  destruct (decide (n = 3%nat)) as [H3|H3]; [lia|].
  assert (Hdone : object_size <= N.of_nat n * chunk_size) by lia.
  assert ((object_size + chunk_size - 1) / chunk_size <= N.of_nat n).
  { apply N.lt_succ_r, N.Div0.div_lt_upper_bound.
    unfold chunk_size in *. lia. }
  lia.
Qed.

(** ** Instances of the further properties *)

Import Samples.

Lemma getFile_never_returns_normally_witness :
  Store.get {| Store.put := 0; Store.putBytes := 0; Store.putTimeMs := 0;
               Store.get := 1; Store.getBytes := 0; Store.getTimeMs := 0;
               Store.head := 0 |}
  = Store.u64 (Store.get Store.no_stats + 1).
Proof.
  assert (Hcall : getFile_call "s3://cache" "big.nar"
                    (Success (70 * 1024 * 1024)%Z) tagged
                    [Callback 0 FAILED; Consume; Consume] 7 Store.no_stats
                  = Some (Throw (runtime_error "Error from AWS"),
                          {| Store.put := 0; Store.putBytes := 0;
                             Store.putTimeMs := 0; Store.get := 1;
                             Store.getBytes := 0; Store.getTimeMs := 0;
                             Store.head := 0 |},
                          []))
    by (vm_compute; reflexivity).
  exact (proj1 (proj2 (getFile_never_returns_normally _ _ _ _ _ _ _ _ _ _
                         Hcall))).
Defined.

Lemma cursor_stays_within_object_witness :
  exists s',
    step (70 * 1024 * 1024) tagged (Callback 0 COMPLETED)
      (init (70 * 1024 * 1024)) = Some s'
    /\ next_chunk_offset (init (70 * 1024 * 1024)) <= next_chunk_offset s'
    /\ next_chunk_offset s' <= 70 * 1024 * 1024.
Proof.
  assert (Hfit : 70 * 1024 * 1024 < size_t_max) by reflexivity.
  assert (Hs : reachable (70 * 1024 * 1024) tagged (init (70 * 1024 * 1024)))
    by (exists []; reflexivity).
  destruct (step (70 * 1024 * 1024) tagged (Callback 0 COMPLETED)
              (init (70 * 1024 * 1024))) as [s'|] eqn:He.
  - exists s'. split; [reflexivity|].
    destruct (cursor_stays_within_object _ _ _ _ _ Hfit Hs He)
      as (Hle & Hsize & _).
    exact (conj Hle Hsize).
  - vm_compute in He. discriminate.
Defined.

Lemma in_flight_and_buffered_share_the_queue_witness :
  (in_flight (init (200 * 1024 * 1024))
   + buffered (init (200 * 1024 * 1024)) <= 5)%nat.
Proof.
  assert (Hfit : 200 * 1024 * 1024 < size_t_max) by reflexivity.
  assert (Hs : reachable (200 * 1024 * 1024) tagged
                 (init (200 * 1024 * 1024)))
    by (exists []; reflexivity).
  exact (proj2 (in_flight_and_buffered_share_the_queue _ _ _ Hfit Hs)).
Defined.

Lemma fetch_blocks_when_caller_waits_first_witness :
  exists s,
    run 3 (s3_range abc) [Consume] (init 3) = Some s
    /\ pc s = InGet
    /\ (forall e, step 3 (s3_range abc) e s = None)
    /\ (forall evs s', run 3 (s3_range abc) evs s = Some s' -> s' = s).
Proof.
  apply (fetch_blocks_when_caller_waits_first 3 (s3_range abc));
    reflexivity.
Defined.

Lemma uploadFile_sends_one_request_witness :
  Store.network
    (snd (Store.uploadFile single_shot_config "a.narinfo" "text/x-nix-narinfo"
            "xz" good_upload Store.new_store))
  = [] ++ [Store.NetPutObject "cache" "a.narinfo" "text/x-nix-narinfo"
             (Some "xz")].
Proof.
  apply (uploadFile_sends_one_request single_shot_config "a.narinfo"
           "text/x-nix-narinfo" "xz" good_upload Store.new_store).
  apply StoreFacts.new_store_ok.
Defined.

Lemma upsertFile_compression_conflicts_with_multipart_witness :
  Store.network
    (snd (Upload.upsertFile marking multipart_config xz_narinfo
            "0123456789abcdfghijklmnpqrsvwxyz.narinfo" "text/x-nix-narinfo"
            abc good_upload Store.new_store))
  = Store.network Store.new_store.
Proof.
  apply (upsertFile_compression_conflicts_with_multipart marking
           multipart_config xz_narinfo
           "0123456789abcdfghijklmnpqrsvwxyz.narinfo" "text/x-nix-narinfo"
           abc good_upload Store.new_store).
  - reflexivity.
  - apply StoreFacts.new_store_ok.
  - left. split; [discriminate|reflexivity].
Defined.

Lemma listing_is_the_scan_of_all_pages_witness :
  Store.scan_page (StorePath := string) Ok "/nix/store" "x"
    (Listing.keys_of_pages two_pages 5 "") ∅
  = Ok ({["/nix/store/zyxwvsrqpnmlkjihgfdcba9876543210-x"]}
        ∪ ({["/nix/store/0123456789abcdfghijklmnpqrsvwxyz-x"]} ∪ ∅)).
Proof.
  apply (listing_is_the_scan_of_all_pages (StorePath := string) Ok
           "/nix/store" "x" "cache" two_pages 5).
  vm_compute. reflexivity.
Defined.

Lemma scan_page_depends_on_the_keys_only_witness :
  ({["/nix/store/0123456789abcdfghijklmnpqrsvwxyz-x"]}
   ∪ ({["/nix/store/0123456789abcdfghijklmnpqrsvwxyz-x"]} ∪ ∅) : gset string)
  = {["/nix/store/0123456789abcdfghijklmnpqrsvwxyz-x"]} ∪ ∅.
Proof.
  apply (scan_page_depends_on_the_keys_only (StorePath := string) Ok
           "/nix/store" "x" [narinfo_key; narinfo_key] [narinfo_key] ∅).
  - intros key. rewrite !elem_of_cons. tauto.
  - reflexivity.
  - reflexivity.
Defined.

Lemma listing_needs_an_empty_marker_witness :
  Store.queryAllValidPaths (StorePath := string) Ok "/nix/store" "x" "cache"
    endless 7
  = None.
Proof.
  apply (listing_needs_an_empty_marker (StorePath := string) Ok "/nix/store"
           "x" "cache" endless).
  - intros s. exists s. reflexivity.
  - intros marker. exists ["nix-cache-info"], "again".
    split; [reflexivity|discriminate].
Defined.

Lemma decode_is_injective_on_listed_keys_witness :
  narinfo_key = "0123456789abcdfghijklmnpqrsvwxyz.narinfo".
Proof.
  apply (decode_is_injective_on_listed_keys "/nix/store" "x" narinfo_key
           "0123456789abcdfghijklmnpqrsvwxyz.narinfo"); reflexivity.
Defined.

Lemma upsertFile_sends_the_compressed_body_witness :
  Store.network
    (snd (Upload.upsertFile marking single_shot_config xz_everything
            "log/0123456789abcdfghijklmnpqrsvwxyz.narinfo" "text/plain" abc
            good_upload Store.new_store))
  = Store.network Store.new_store
    ++ [Store.NetPutObject (Store.bucketName single_shot_config)
          "log/0123456789abcdfghijklmnpqrsvwxyz.narinfo" "text/plain"
          (Some (Upload.method_for xz_everything
                   "log/0123456789abcdfghijklmnpqrsvwxyz.narinfo"))]
  /\ Upload.method_for xz_everything
       "log/0123456789abcdfghijklmnpqrsvwxyz.narinfo" = "xz".
Proof.
  split; [|reflexivity].
  apply (upsertFile_sends_the_compressed_body marking single_shot_config
           xz_everything "log/0123456789abcdfghijklmnpqrsvwxyz.narinfo"
           "text/plain" abc (Byte.xff :: abc) good_upload Store.new_store).
  - reflexivity.
  - apply StoreFacts.new_store_ok.
  - discriminate.
  - reflexivity.
Defined.

Lemma fetch_opens_the_first_window_witness :
  N.of_nat (length (requests (init (40 * 1024 * 1024))))
  = N.min 3 ((40 * 1024 * 1024 + chunk_size - 1) / chunk_size)
  /\ N.min 3 ((40 * 1024 * 1024 + chunk_size - 1) / chunk_size) = 2.
Proof.
  split; [|reflexivity].
  apply (fetch_opens_the_first_window (40 * 1024 * 1024) tagged).
  reflexivity.
Defined.
